(** * An in-memory job registry (src/index.js): model and verification

    The registry keeps three pieces of process-wide state: [jobData], a
    JavaScript [Map] from job identifier to job value; [lockedJobs], a [Set]
    of identifiers with an add or remove in flight; and [cache], a
    [NodeCache] holding the listing under the key ['allJobs'].

    The three operations [addJob], [getAllJobs] and [removeJob] are embedded
    as functions on that state.  [addJob] and [removeJob] contain one
    [await]; each is split at it into a [_begin] and a [_resume] half, so
    that other requests can be dispatched in between, as the event loop
    does. *)

From stdpp Require Import gmap strings list sorting.
From Stdlib Require Import ZArith Ascii String.

Local Open Scope string_scope.
Local Open Scope list_scope.
Local Open Scope Z_scope.

(** ** JavaScript values and the operators the program applies to them *)

Module JS.

(** Numbers are the values of the double format.  A finite double is a whole
    multiple of 2^-1074: [Num z] is the integer [z], and [Frac k] is
    [k * 2^-1074] for a [k] that is no multiple of 2^1074, a number that is
    not an integer.  [Infinity true] is the negative infinity.  The two
    zeros are not told apart.  The numbers meant are those a double holds,
    53 significant bits and a magnitude below 2^1024; conversion from text
    and subtraction round to them. *)
Inductive number : Type :=
| NaN
| Num (z : Z)
| Frac (k : Z)
| Infinity (negative : bool).

(** A finite number counted in units of 2^-1074, and back. *)
Definition units (n : number) : Z :=
  match n with
  | Num z => z * 2 ^ 1074
  | Frac k => k
  | _ => 0
  end.

Definition of_units (k : Z) : number :=
  if k mod 2 ^ 1074 =? 0 then Num (k / 2 ^ 1074) else Frac k.

(** [a / 2^s] rounded to the nearest integer, a tie going to the even
    one. *)
Definition round_nearest_even (a s : Z) : Z :=
  let q := a / 2 ^ s in
  let rem := a mod 2 ^ s in
  let half := 2 ^ (s - 1) in
  if (half <? rem) || ((rem =? half) && Z.odd q) then q + 1 else q.

(** The double nearest to [a] quarters of a unit: 53 significant bits are
    kept, and no bit below the unit; from 2^1024 on the result is
    infinite. *)
Definition round_quarters (a : Z) : number :=
  let m := Z.abs a in
  let s := Z.max 2 (Z.log2 m - 52) in
  let r := round_nearest_even m s * 2 ^ (s - 2) in
  if 2 ^ 2098 <=? r then Infinity (a <? 0) else of_units (Z.sgn a * r).

(** The double nearest to [m * 10^e], negated when [neg]. *)
Definition round_decimal (neg : bool) (m e : Z) : number :=
  let sign := if neg then -1 else 1 in
  if 0 <=? e then round_quarters (sign * (4 * m * 10 ^ e * 2 ^ 1074))
  else
    let p := 2 * m * 2 ^ 1074 in
    let q := 10 ^ (- e) in
    round_quarters (sign * (2 * (p / q) + (if p mod q =? 0 then 0 else 1))).

(** The values that reach the registry: [undefined] (a missing query
    parameter), numbers and strings.  Strings are sequences of 8-bit code
    units. *)
Inductive jsval : Type :=
| JUndefined
| JNum (n : number)
| JStr (s : string).

#[global] Instance number_eq_dec : EqDecision number.
Proof. solve_decision. Defined.

#[global] Instance jsval_eq_dec : EqDecision jsval.
Proof. solve_decision. Defined.

(** [ToBoolean]: [undefined], [0], [NaN] and the empty string are falsy. *)
Definition ToBoolean (v : jsval) : bool :=
  match v with
  | JUndefined => false
  | JNum NaN => false
  | JNum (Num z) => negb (z =? 0)
  | JNum (Frac _) => true
  | JNum (Infinity _) => true
  | JStr s => negb (String.eqb s "")
  end.

(** The prefix operator [!]. *)
Definition not (v : jsval) : bool := negb (ToBoolean v).

(** *** [StringToNumber] *)

Definition is_whitespace (c : ascii) : bool :=
  let n := N_of_ascii c in
  ((9 <=? n) && (n <=? 13) || (n =? 32) || (n =? 160))%N.

Fixpoint trim_start (s : string) : string :=
  match s with
  | String c s' => if is_whitespace c then trim_start s' else s
  | EmptyString => EmptyString
  end.

Fixpoint trim_end (s : string) : string :=
  match s with
  | String c s' =>
      match trim_end s' with
      | EmptyString => if is_whitespace c then EmptyString else String c EmptyString
      | t => String c t
      end
  | EmptyString => EmptyString
  end.

Definition trim (s : string) : string := trim_end (trim_start s).

Definition digit (c : ascii) : option Z :=
  let n := Z.of_N (N_of_ascii c) in
  if (48 <=? n) && (n <=? 57) then Some (n - 48) else None.

(** The leading decimal digits of [s]: their value on top of [acc], their
    count on top of [n], and what follows them. *)
Fixpoint take_digits (acc n : Z) (s : string) : Z * Z * string :=
  match s with
  | String c s' =>
      match digit c with
      | Some d => take_digits (10 * acc + d) (n + 1) s'
      | None => (acc, n, s)
      end
  | EmptyString => (acc, n, s)
  end.

Definition take_sign (s : string) : bool * string :=
  match s with
  | String "+"%char r => (false, r)
  | String "-"%char r => (true, r)
  | _ => (false, s)
  end.

(** The rest of a literal after its digits: nothing, or [e] or [E], an
    optional sign and at least one digit, up to the end. *)
Definition exponent_part (s : string) : option Z :=
  match s with
  | EmptyString => Some 0
  | String c r =>
      if Ascii.eqb c "e" || Ascii.eqb c "E" then
        let '(neg, r') := take_sign r in
        match take_digits 0 0 r' with
        | (e, n, EmptyString) =>
            if 0 <? n then Some (if neg : bool then - e else e) else None
        | _ => None
        end
      else None
  end.

(** An unsigned decimal literal as a mantissa and a power of ten: digits,
    then optionally a point and digits, with a digit on one side of the
    point at least, then optionally an exponent. *)
Definition unsigned_decimal (s : string) : option (Z * Z) :=
  let '(i, ni, r) := take_digits 0 0 s in
  match r with
  | String "."%char r1 =>
      let '(m, nf, r2) := take_digits i 0 r1 in
      if (0 <? ni) || (0 <? nf)
      then match exponent_part r2 with
           | Some e => Some (m, e - nf)
           | None => None
           end
      else None
  | _ =>
      if 0 <? ni
      then match exponent_part r with
           | Some e => Some (i, e)
           | None => None
           end
      else None
  end.

Definition decimal_literal (s : string) : number :=
  let '(neg, u) := take_sign s in
  if String.eqb u "Infinity" then Infinity neg
  else match unsigned_decimal u with
       | Some (m, e) => round_decimal neg m e
       | None => NaN
       end.

Definition radix_digit (radix : Z) (c : ascii) : option Z :=
  let n := Z.of_N (N_of_ascii c) in
  let d := if (48 <=? n) && (n <=? 57) then n - 48
           else if (97 <=? n) && (n <=? 102) then n - 87
           else if (65 <=? n) && (n <=? 70) then n - 55
           else radix in
  if d <? radix then Some d else None.

Fixpoint radix_digits (radix acc : Z) (s : string) : option Z :=
  match s with
  | EmptyString => Some acc
  | String c s' =>
      match radix_digit radix c with
      | Some d => radix_digits radix (radix * acc + d) s'
      | None => None
      end
  end.

(** The literals [0x...], [0o...] and [0b...], which take no sign. *)
Definition nondecimal_literal (s : string) : option number :=
  match s with
  | String "0"%char (String c r) =>
      let radix :=
        if Ascii.eqb c "x" || Ascii.eqb c "X" then Some 16
        else if Ascii.eqb c "o" || Ascii.eqb c "O" then Some 8
        else if Ascii.eqb c "b" || Ascii.eqb c "B" then Some 2
        else None in
      match radix with
      | Some b =>
          Some match r with
               | EmptyString => NaN
               | _ => match radix_digits b 0 r with
                      | Some n => round_quarters (4 * n * 2 ^ 1074)
                      | None => NaN
                      end
               end
      | None => None
      end
  | _ => None
  end.

(** White space is trimmed; the empty string is [0]; a literal of the
    grammar yields the double nearest to its value, and any other text
    [NaN]. *)
Definition StringToNumber (s : string) : number :=
  match trim s with
  | EmptyString => Num 0
  | t =>
      match nondecimal_literal t with
      | Some n => n
      | None => decimal_literal t
      end
  end.

Definition ToNumber (v : jsval) : number :=
  match v with
  | JUndefined => NaN
  | JNum n => n
  | JStr s => StringToNumber s
  end.

(** *** Relational comparison *)

(** [x < y] on two numbers that are not [NaN]. *)
Definition number_ltb (x y : number) : bool :=
  match x, y with
  | NaN, _ | _, NaN => false
  | Infinity nx, Infinity ny => nx && negb ny
  | Infinity nx, _ => nx
  | _, Infinity ny => negb ny
  | _, _ => units x <? units y
  end.

(** [IsLessThan]: two strings are compared by code units, anything else
    numerically; [None] is the specification's [undefined] result, which
    arises when an operand is [NaN]. *)
Definition IsLessThan (x y : jsval) : option bool :=
  match x, y with
  | JStr sx, JStr sy => Some (String.ltb sx sy)
  | _, _ =>
      match ToNumber x, ToNumber y with
      | NaN, _ | _, NaN => None
      | nx, ny => Some (number_ltb nx ny)
      end
  end.

(** [x >= y]: true exactly when [x < y] evaluates to [false]. *)
Definition ge (x y : jsval) : bool :=
  match IsLessThan x y with
  | Some false => true
  | _ => false
  end.

(** The difference of two numbers, rounded to a double. *)
Definition number_sub (x y : number) : number :=
  match x, y with
  | NaN, _ | _, NaN => NaN
  | Infinity nx, Infinity ny => if Bool.eqb nx ny then NaN else Infinity nx
  | Infinity nx, _ => Infinity nx
  | _, Infinity ny => Infinity (negb ny)
  | _, _ => round_quarters (4 * (units x - units y))
  end.

(** [x - y]. *)
Definition sub (x y : jsval) : number := number_sub (ToNumber x) (ToNumber y).

(** *** [Array.prototype.sort] with a comparator *)

(** What the sort looks at in the comparator's result: its sign, a result
    of [NaN] counting as [+0]. *)
Definition number_sign (n : number) : Z :=
  match n with
  | NaN => 0
  | Num z => z
  | Frac k => k
  | Infinity negative => if negative then -1 else 1
  end.

Definition SortCompare {A} (comparefn : A -> A -> number) (x y : A) : Z :=
  number_sign (comparefn x y).

(** The sort is stable.  With a consistent comparator that fixes the
    result, whatever the algorithm; with another the order is left to the
    implementation.  It is computed here by insertion from the right, an
    element going in front of the first one it does not exceed. *)
Fixpoint sort_insert {A} (comparefn : A -> A -> number) (x : A) (l : list A)
  : list A :=
  match l with
  | [] => [x]
  | y :: l' =>
      if SortCompare comparefn x y <=? 0 then x :: y :: l'
      else y :: sort_insert comparefn x l'
  end.

Fixpoint sort {A} (comparefn : A -> A -> number) (l : list A) : list A :=
  match l with
  | [] => []
  | x :: l' => sort_insert comparefn x (sort comparefn l')
  end.

End JS.

Export JS.

(** ** The data the registry holds *)

(** A job identifier is query text: the string given for [jobid], or [None]
    when the parameter is missing ([undefined]). *)
Abbreviation jobid := (option string).

Definition id_value (id : jobid) : jsval :=
  match id with
  | Some s => JStr s
  | None => JUndefined
  end.

(** The objects [{ JobID: ..., JobValue: ... }] that a listing is made of. *)
Record job : Type := { JobID : jobid; JobValue : jsval }.

#[global] Instance job_eq_dec : EqDecision job.
Proof. solve_decision. Defined.

(** *** [Map]: entries in insertion order, one per key *)

Section Map.
Context {K V : Type} `{EqDecision K}.

Fixpoint Map_get (k : K) (m : list (K * V)) : option V :=
  match m with
  | [] => None
  | (k', v) :: m' => if decide (k = k') then Some v else Map_get k m'
  end.

Definition Map_has (k : K) (m : list (K * V)) : bool :=
  match Map_get k m with
  | Some _ => true
  | None => false
  end.

(** [set] on a key that is present replaces the value where it stands; a
    new key goes to the end. *)
Fixpoint Map_set (k : K) (v : V) (m : list (K * V)) : list (K * V) :=
  match m with
  | [] => [(k, v)]
  | (k', v') :: m' =>
      if decide (k = k') then (k, v) :: m' else (k', v') :: Map_set k v m'
  end.

Fixpoint Map_delete (k : K) (m : list (K * V)) : list (K * V) :=
  match m with
  | [] => []
  | (k', v') :: m' =>
      if decide (k = k') then m' else (k', v') :: Map_delete k m'
  end.

Definition Map_entries (m : list (K * V)) : list (K * V) := m.
End Map.

(** *** [NodeCache]: values stored with the time they lapse at *)

(** Modelled from the spec: [NodeCache] is the node-cache package, whose
    code is not in the repository.  Section 4.3 gives its contract: [get]
    returns the value or a miss, [set] stores a value with a time to live
    and overwrites, [del] removes the entry whatever its time to live; a
    hit before the time to live has elapsed returns the stored value.  An
    entry is what the package's [_wrap] builds: the lapse time [t] in
    milliseconds ([0]: never) and the value [v].  The cache clones on [set]
    and on [get], so a stored value is not shared with the caller's
    array. *)
Record wrapped : Type := { t : Z; v : list job }.

(** The default time to live, in seconds, that the cache is created with. *)
Definition stdTTL : Z := 30.

Definition NodeCache_wrap (value : list job) (ttl now : Z) : wrapped :=
  {| t := if ttl =? 0 then 0 else now + ttl * 1000; v := value |}.

(** [_check]: an entry whose time has passed is deleted and not served. *)
Definition NodeCache_check (now : Z) (d : wrapped) : bool :=
  negb (negb (t d =? 0) && (t d <? now)).

Definition NodeCache_get (key : string) (now : Z) (data : gmap string wrapped)
  : option (list job) * gmap string wrapped :=
  match data !! key with
  | Some d =>
      if NodeCache_check now d then (Some (v d), data)
      else (None, delete key data)
  | None => (None, data)
  end.

Definition NodeCache_set (key : string) (value : list job) (ttl now : Z)
  (data : gmap string wrapped) : gmap string wrapped :=
  <[key := NodeCache_wrap value ttl now]> data.

Definition NodeCache_del (key : string) (data : gmap string wrapped)
  : gmap string wrapped :=
  delete key data.

(** *** The registry state *)

Record registry : Type := {
  jobData : list (jobid * jsval);
  lockedJobs : gset jobid;
  cache : gmap string wrapped
}.

Definition initial : registry :=
  {| jobData := []; lockedJobs := ∅; cache := ∅ |}.

(** ** Effects: the registry is mutated in place, and a [throw] keeps
    whatever was written before it *)

(** The four messages the code throws, by the kinds the design names. *)
Inductive error : Type :=
| InvalidInput
| AlreadyExists
| NotFound
| AlreadyProcessing.

Definition message (e : error) : string :=
  match e with
  | InvalidInput => "Invalid input data"
  | AlreadyExists => "Job ID already exists."
  | NotFound => "Job ID not found."
  | AlreadyProcessing => "Job ID is already being processed."
  end.

Inductive result (A : Type) : Type :=
| Ok (a : A)
| Throw (e : error).
Arguments Ok {A} a.
Arguments Throw {A} e.

#[global] Instance error_eq_dec : EqDecision error.
Proof. solve_decision. Defined.

(** A computation on the registry: its completion, and the registry as it
    leaves it. *)
Definition M (A : Type) : Type := registry -> result A * registry.

Definition ret {A} (a : A) : M A := fun r => (Ok a, r).

Definition throw {A} (e : error) : M A := fun r => (Throw e, r).

Definition bind {A B} (m : M A) (k : A -> M B) : M B :=
  fun r =>
    match m r with
    | (Ok a, r') => k a r'
    | (Throw e, r') => (Throw e, r')
    end.

Notation "'do' x <- m ; k" := (bind m (fun x => k))
  (at level 10, x name, m at level 100, k at level 200).

(** The calls on the three objects. *)
Definition jobData_has (id : jobid) : M bool :=
  fun r => (Ok (Map_has id (jobData r)), r).

Definition jobData_entries : M (list (jobid * jsval)) :=
  fun r => (Ok (Map_entries (jobData r)), r).

Definition jobData_set (id : jobid) (jobValue : jsval) : M unit :=
  fun r => (Ok tt, {| jobData := Map_set id jobValue (jobData r);
                      lockedJobs := lockedJobs r;
                      cache := cache r |}).

Definition jobData_delete (id : jobid) : M unit :=
  fun r => (Ok tt, {| jobData := Map_delete id (jobData r);
                      lockedJobs := lockedJobs r;
                      cache := cache r |}).

Definition lockedJobs_has (id : jobid) : M bool :=
  fun r => (Ok (bool_decide (id ∈ lockedJobs r)), r).

Definition lockedJobs_add (id : jobid) : M unit :=
  fun r => (Ok tt, {| jobData := jobData r;
                      lockedJobs := {[id]} ∪ lockedJobs r;
                      cache := cache r |}).

Definition lockedJobs_delete (id : jobid) : M unit :=
  fun r => (Ok tt, {| jobData := jobData r;
                      lockedJobs := lockedJobs r ∖ {[id]};
                      cache := cache r |}).

Definition cache_get (key : string) (now : Z) : M (option (list job)) :=
  fun r =>
    let '(value, data) := NodeCache_get key now (cache r) in
    (Ok value, {| jobData := jobData r; lockedJobs := lockedJobs r; cache := data |}).

Definition cache_set (key : string) (value : list job) (ttl now : Z) : M unit :=
  fun r => (Ok tt, {| jobData := jobData r;
                      lockedJobs := lockedJobs r;
                      cache := NodeCache_set key value ttl now (cache r) |}).

Definition cache_del (key : string) : M unit :=
  fun r => (Ok tt, {| jobData := jobData r;
                      lockedJobs := lockedJobs r;
                      cache := NodeCache_del key (cache r) |}).

(** ** The operations *)

Definition validateJobInput (id : jobid) (jobValue : jsval) : M unit :=
  if JS.not (id_value id) || JS.not jobValue then throw InvalidInput
  else ret tt.

(** [addJob] up to its [await]: the checks, then the lock. *)
Definition addJob_begin (id : jobid) (jobValue : jsval) : M unit :=
  do _ <- validateJobInput id jobValue;
  do exists_ <- jobData_has id;
  if exists_ : bool then throw AlreadyExists
  else
    do locked <- lockedJobs_has id;
    if locked : bool then throw AlreadyProcessing
    else lockedJobs_add id.

(** [addJob] from its [await] on: unlock, store, drop the cached listing. *)
Definition addJob_resume (id : jobid) (jobValue : jsval) : M unit :=
  do _ <- lockedJobs_delete id;
  do _ <- jobData_set id jobValue;
  cache_del "allJobs".

(** [addJob] when nothing else is dispatched while it waits. *)
Definition addJob (id : jobid) (jobValue : jsval) : M unit :=
  do _ <- addJob_begin id jobValue;
  addJob_resume id jobValue.

(** The loop of [getAllJobs], pushing the entries that pass onto [jobs]. *)
Fixpoint collect (jobValue : jsval) (entries : list (jobid * jsval))
  (jobs : list job) : list job :=
  match entries with
  | [] => jobs
  | (id, _jobValue) :: rest =>
      collect jobValue rest
        (if JS.not jobValue || JS.ge _jobValue jobValue
         then jobs ++ [{| JobID := id; JobValue := _jobValue |}]
         else jobs)
  end.

(** The comparator [(a, b) => a.JobValue - b.JobValue]. *)
Definition byJobValue (a b : job) : number := JS.sub (JobValue a) (JobValue b).

Definition listingTTL : Z := 10.

(** [getAllJobs] has no [await]: it runs in one piece, at clock reading
    [now]. *)
Definition getAllJobs (now : Z) (jobValue : jsval) : M (list job) :=
  do cachedJobs <- cache_get "allJobs" now;
  let compute : M (list job) :=
    do entries <- jobData_entries;
    let jobs := JS.sort byJobValue (collect jobValue entries []) in
    do _ <- cache_set "allJobs" jobs listingTTL now;
    ret jobs in
  match cachedJobs with
  | Some hit => if JS.not jobValue then ret hit else compute
  | None => compute
  end.

(** [removeJob] up to its [await]; the validator is given [100] for the
    value. *)
Definition removeJob_begin (id : jobid) : M unit :=
  do _ <- validateJobInput id (JNum (Num 100));
  do exists_ <- jobData_has id;
  if negb exists_ then throw NotFound
  else
    do locked <- lockedJobs_has id;
    if locked : bool then throw AlreadyProcessing
    else lockedJobs_add id.

(** [removeJob] from its [await] on. *)
Definition removeJob_resume (id : jobid) : M unit :=
  do _ <- lockedJobs_delete id;
  do _ <- jobData_delete id;
  cache_del "allJobs".

Definition removeJob (id : jobid) : M unit :=
  do _ <- removeJob_begin id;
  removeJob_resume id.

(** ** The event loop *)

(** An operation parked at its [await], to be resumed when its timer
    fires. *)
Inductive continuation : Type :=
| AddJobK (id : jobid) (jobValue : jsval)
| RemoveJobK (id : jobid).

(** The process: the registry and the timers, oldest first.  All timers run
    for the same delay, so they fire in the order they were set. *)
Record server : Type := { heap : registry; timers : list continuation }.

Inductive event : Type :=
| CallAddJob (id : jobid) (jobValue : jsval)
| CallRemoveJob (id : jobid)
| CallGetAllJobs (now : Z) (jobValue : jsval)
| TimerFires.

Inductive outcome : Type :=
| Rejected (e : error)
| Awaiting
| Resolved
| Listed (jobs : list job)
| Idle.

Definition resume (k : continuation) : M unit :=
  match k with
  | AddJobK id jobValue => addJob_resume id jobValue
  | RemoveJobK id => removeJob_resume id
  end.

Definition settle {A} (res : result A) (good : A -> outcome) : outcome :=
  match res with
  | Ok a => good a
  | Throw e => Rejected e
  end.

Definition park {A} (res : result A) (k : continuation)
  (ts : list continuation) : list continuation :=
  match res with
  | Ok _ => ts ++ [k]
  | Throw _ => ts
  end.

Definition dispatch (e : event) (s : server) : outcome * server :=
  match e with
  | CallAddJob id jobValue =>
      let '(res, r) := addJob_begin id jobValue (heap s) in
      (settle res (fun _ => Awaiting),
       {| heap := r; timers := park res (AddJobK id jobValue) (timers s) |})
  | CallRemoveJob id =>
      let '(res, r) := removeJob_begin id (heap s) in
      (settle res (fun _ => Awaiting),
       {| heap := r; timers := park res (RemoveJobK id) (timers s) |})
  | CallGetAllJobs now jobValue =>
      let '(res, r) := getAllJobs now jobValue (heap s) in
      (settle res Listed, {| heap := r; timers := timers s |})
  | TimerFires =>
      match timers s with
      | [] => (Idle, s)
      | k :: ts =>
          let '(res, r) := resume k (heap s) in
          (settle res (fun _ => Resolved), {| heap := r; timers := ts |})
      end
  end.

Definition boot : server := {| heap := initial; timers := [] |}.

Fixpoint run (es : list event) (s : server) : server :=
  match es with
  | [] => s
  | e :: es' => run es' (dispatch e s).2
  end.


(** ** The vocabulary of the statements *)

(** A parameter is missing or empty: [undefined], or the empty string. *)
Definition missing_or_empty (v : jsval) : Prop := v = JUndefined ∨ v = JStr "".

(** What [!v] accepts: the above, and the numbers [0] and [NaN]. *)
Definition falsy (v : jsval) : Prop :=
  missing_or_empty v ∨ v = JNum (Num 0) ∨ v = JNum NaN.

Definition id_missing_or_empty (id : jobid) : Prop := id = None ∨ id = Some "".

#[global] Instance missing_or_empty_dec v : Decision (missing_or_empty v).
Proof. unfold missing_or_empty. apply _. Defined.

#[global] Instance falsy_dec v : Decision (falsy v).
Proof. unfold falsy. apply _. Defined.

#[global] Instance id_missing_or_empty_dec id : Decision (id_missing_or_empty id).
Proof. unfold id_missing_or_empty. apply _. Defined.

(** The entry of a listing made from an entry of the store. *)
Definition to_job (e : jobid * jsval) : job := {| JobID := e.1; JobValue := e.2 |}.

(** The test of the loop: no filter, or a value [>=] the filter. *)
Definition keeps (jobValue : jsval) (e : jobid * jsval) : bool :=
  JS.not jobValue || JS.ge e.2 jobValue.

(** The entries kept, in the store's enumeration order. *)
Definition kept (jobValue : jsval) (entries : list (jobid * jsval)) : list job :=
  to_job <$> List.filter (keeps jobValue) entries.

(** What a recomputation returns. *)
Definition listing (jobValue : jsval) (r : registry) : list job :=
  JS.sort byJobValue (kept jobValue (jobData r)).

(** The listing the cache would serve at clock reading [now]. *)
Definition cached (now : Z) (r : registry) : option (list job) :=
  (NodeCache_get "allJobs" now (cache r)).1.

(** A value that denotes a number. *)
Definition numeric (v : jsval) : Prop := ToNumber v ≠ NaN.

(** [x <= y] on two numbers; false when one is [NaN]. *)
Definition number_leb (x y : number) : bool :=
  match x, y with
  | NaN, _ | _, NaN => false
  | _, _ => negb (number_ltb y x)
  end.

(** The number a job's value denotes. *)
Definition value (a : job) : number := ToNumber (JobValue a).

Definition value_leb (a b : job) : bool := number_leb (value a) (value b).

(** Two jobs of equal numeric value. *)
Definition same_value (a b : job) : bool := value_leb a b && value_leb b a.

(** [a] does not exceed [b]: of two numbers, the first is at most the
    second; a value that is no number exceeds nothing and is exceeded by
    nothing. *)
Definition value_le (a b : job) : Prop :=
  match value a, value b with
  | NaN, _ | _, NaN => True
  | x, y => number_leb x y = true
  end.

(** Ascending by value: no entry exceeds a later one. *)
Definition ascending (jobs : list job) : Prop := StronglySorted value_le jobs.

(** The completion and the registry left by a computation. *)
Definition completion {A} (m : M A) (r : registry) : result A := (m r).1.
Definition after {A} (m : M A) (r : registry) : registry := (m r).2.

(** Every value in the store passed the validator of [addJob]. *)
Definition values_truthy (m : list (jobid * jsval)) : Prop :=
  Forall (λ e, ToBoolean e.2 = true) m.

Definition continuation_truthy (k : continuation) : Prop :=
  match k with
  | AddJobK _ jobValue => ToBoolean jobValue = true
  | RemoveJobK _ => True
  end.

Definition continuation_id (k : continuation) : jobid :=
  match k with
  | AddJobK id _ => id
  | RemoveJobK id => id
  end.

(** The locks held are those of the operations parked at their [await],
    one operation per identifier. *)
Definition locks_match_timers (s : server) : Prop :=
  NoDup (continuation_id <$> timers s) ∧
  ∀ id, id ∈ lockedJobs (heap s) ↔ id ∈ continuation_id <$> timers s.

(** [addJob id jobValue], called on [r], succeeds and leaves [r']: its
    checks pass on [r], and it resumes on the registry [parked] that the
    requests dispatched while it waited have left. *)
Definition addJob_succeeds (id : jobid) (jobValue : jsval) (r r' : registry) : Prop :=
  completion (addJob_begin id jobValue) r = Ok tt ∧
  ∃ parked, r' = after (addJob_resume id jobValue) parked.

Definition removeJob_succeeds (id : jobid) (r r' : registry) : Prop :=
  completion (removeJob_begin id) r = Ok tt ∧
  ∃ parked, r' = after (removeJob_resume id) parked.

(** What one dispatch does to the lock set, by its outcome: a call that is
    rejected leaves it alone; a call that parks adds its identifier, which
    was free; a resumption removes its identifier, which was held, and no
    other parked operation is left to remove it again. *)
Definition lock_discipline (s : server) (o : outcome) (s' : server) : Prop :=
  match o with
  | Rejected _ =>
      lockedJobs (heap s') = lockedJobs (heap s) ∧ timers s' = timers s
  | Awaiting =>
      ∃ k, timers s' = (timers s ++ [k]) ∧
           (continuation_id k ∉ lockedJobs (heap s)) ∧
           lockedJobs (heap s') = {[continuation_id k]} ∪ lockedJobs (heap s)
  | Resolved =>
      ∃ k, timers s = (k :: timers s') ∧
           continuation_id k ∈ lockedJobs (heap s) ∧
           lockedJobs (heap s') = lockedJobs (heap s) ∖ {[continuation_id k]} ∧
           (continuation_id k ∉ lockedJobs (heap s')) ∧
           continuation_id k ∉ continuation_id <$> timers s'
  | Listed _ | Idle =>
      lockedJobs (heap s') = lockedJobs (heap s) ∧ timers s' = timers s
  end.

(** ** The request handlers *)

(** What a handler reads of [req.query]: the text given for each parameter,
    or [None] when the parameter is missing. *)
Record query : Type := { query_jobid : option string; query_jobValue : option string }.

Inductive request : Type :=
| POST_add (q : query)
| GET_all (q : query)
| POST_remove (q : query).

(** The lines a handler writes: [logger.info], [logger.error], and the
    [console.log(req.query)] of the remove handler. *)
Inductive log_entry : Type :=
| logger_info (msg : string)
| logger_error (msg : string)
| console_log (q : query).

(** The bodies sent: [{ stat: 'ok' }], [{ stat: 'error', message }] and
    [{ data: jobs }]. *)
Inductive json : Type :=
| stat_ok
| stat_error (msg : string)
| data (jobs : list job).

Record response : Type := { status : Z; body : json }.

(** A parameter inside a template literal. *)
Definition template (o : option string) : string :=
  match o with
  | Some s => s
  | None => "undefined"
  end.

(** What each handler does once the operation it awaits has settled: the
    [try] branch on completion, the [catch] branch on a throw. *)
Definition add_settled (q : query) (res : result unit) : list log_entry * response :=
  match res with
  | Ok _ =>
      ([logger_info ("Added job: JobID=" +:+ template (query_jobid q) +:+
                     ", JobValue=" +:+ template (query_jobValue q))],
       {| status := 200; body := stat_ok |})
  | Throw e =>
      ([logger_error ("Error adding job [POST /add]: " +:+ message e)],
       {| status := 400; body := stat_error (message e) |})
  end.

Definition all_settled (q : query) (res : result (list job))
  : list log_entry * response :=
  match res with
  | Ok jobs =>
      ([logger_info "Retrieved all jobs"], {| status := 200; body := data jobs |})
  | Throw e =>
      ([logger_error ("Error retrieving jobs [GET /all]: " +:+ message e)],
       {| status := 400; body := stat_error (message e) |})
  end.

Definition remove_settled (q : query) (res : result unit)
  : list log_entry * response :=
  match res with
  | Ok _ =>
      ([logger_info ("Removed job: JobID=" +:+ template (query_jobid q))],
       {| status := 200; body := stat_ok |})
  | Throw e =>
      ([console_log q;
        logger_error ("Error removing job [POST /remove]: " +:+ message e)],
       {| status := 400; body := stat_error (message e) |})
  end.

(** The call a handler makes on the registry, at clock reading [now]. *)
Definition call_of (now : Z) (req : request) : event :=
  match req with
  | POST_add q => CallAddJob (query_jobid q) (id_value (query_jobValue q))
  | GET_all q => CallGetAllJobs now (id_value (query_jobValue q))
  | POST_remove q => CallRemoveJob (query_jobid q)
  end.

(** The handler's continuation, by the way its call came out; nothing is
    sent while the operation waits. *)
Definition settled (req : request) (o : outcome)
  : option (list log_entry * response) :=
  match o with
  | Awaiting | Idle => None
  | Rejected e =>
      Some match req with
           | POST_add q => add_settled q (Throw e)
           | GET_all q => all_settled q (Throw e)
           | POST_remove q => remove_settled q (Throw e)
           end
  | Resolved =>
      match req with
      | POST_add q => Some (add_settled q (Ok tt))
      | POST_remove q => Some (remove_settled q (Ok tt))
      | GET_all q => None
      end
  | Listed jobs =>
      match req with
      | GET_all q => Some (all_settled q (Ok jobs))
      | _ => None
      end
  end.

(** The process with its handlers: the requests whose operation is parked
    wait for it, oldest first. *)
Record http_server : Type := { core : server; awaiting : list request }.

Inductive http_event : Type :=
| Request (now : Z) (req : request)
| Timeout.

Definition serve (ev : http_event) (hs : http_server)
  : option (list log_entry * response) * http_server :=
  match ev with
  | Request now req =>
      let '(o, s) := dispatch (call_of now req) (core hs) in
      (settled req o,
       {| core := s;
          awaiting := match o with
                      | Awaiting => awaiting hs ++ [req]
                      | _ => awaiting hs
                      end |})
  | Timeout =>
      let '(o, s) := dispatch TimerFires (core hs) in
      match awaiting hs with
      | [] => (None, {| core := s; awaiting := [] |})
      | req :: rest => (settled req o, {| core := s; awaiting := rest |})
      end
  end.

Definition http_boot : http_server := {| core := boot; awaiting := [] |}.

(** The exchanges of a run of events, in order, and the process it leaves. *)
Fixpoint serve_all (evs : list http_event) (hs : http_server)
  : list (list log_entry * response) * http_server :=
  match evs with
  | [] => ([], hs)
  | ev :: evs' =>
      let '(sent, hs') := serve ev hs in
      let '(rest, hs'') := serve_all evs' hs' in
      (match sent with Some x => x :: rest | None => rest end, hs'')
  end.

(** ** More vocabulary *)

(** The store is well formed: one entry per identifier, every identifier a
    non-empty string, every value truthy. *)
Definition store_well_formed (m : list (jobid * jsval)) : Prop :=
  NoDup m.*1 ∧
  Forall (λ e, (∃ s, e.1 = Some s ∧ s ≠ "") ∧ ToBoolean e.2 = true) m.

(** What a parked operation found when it was called still holds: the
    identifier of a parked add is not stored, that of a parked remove is. *)
Definition parked_ok (m : list (jobid * jsval)) (k : continuation) : Prop :=
  match k with
  | AddJobK id _ => Map_has id m = false
  | RemoveJobK id => Map_has id m = true
  end.

Definition parked_consistent (s : server) : Prop :=
  Forall (parked_ok (jobData (heap s))) (timers s).

(** What is cached under 'allJobs' is a listing of the store as it is now,
    for some filter. *)
Definition cache_reflects_store (r : registry) : Prop :=
  ∀ d, cache r !! "allJobs" = Some d → ∃ filter, v d = listing filter r.

(** What is cached under 'allJobs' is the unfiltered listing of the store
    as it is now. *)
Definition cache_is_full_listing (r : registry) : Prop :=
  ∀ d, cache r !! "allJobs" = Some d → v d = listing JUndefined r.

(** No listing request of the run carries a filter. *)
Definition unfiltered_only (es : list event) : Prop :=
  Forall (λ e, match e with
               | CallGetAllJobs _ filter => JS.not filter = true
               | _ => True
               end) es.

(** The requests among the events of a run. *)
Definition requests (evs : list http_event) : list request :=
  omap (λ ev, match ev with Request _ req => Some req | Timeout => None end) evs.

(** The continuation a waiting request is parked as. *)
Definition continuation_of (req : request) : option continuation :=
  match req with
  | POST_add q => Some (AddJobK (query_jobid q) (id_value (query_jobValue q)))
  | POST_remove q => Some (RemoveJobK (query_jobid q))
  | GET_all _ => None
  end.

Definition handlers_match_timers (hs : http_server) : Prop :=
  Forall2 (λ req k, continuation_of req = Some k) (awaiting hs) (timers (core hs)).

(** A parked operation passed the validator. *)
Definition continuation_valid (k : continuation) : Prop :=
  (∃ s, continuation_id k = Some s ∧ s ≠ "") ∧ continuation_truthy k.

(** What every state of the server satisfies. *)
Definition server_invariant (s : server) : Prop :=
  store_well_formed (jobData (heap s)) ∧
  locks_match_timers s ∧
  parked_consistent s ∧
  Forall continuation_valid (timers s) ∧
  cache_reflects_store (heap s).

(** ** Facts about the operators *)

Lemma not_true_iff_falsy v : JS.not v = true ↔ falsy v.
Proof.
  unfold JS.not, falsy, missing_or_empty.
  destruct v as [ | [ | z | k | negative] | s]; simpl.
  - intuition.
  - intuition.
  - rewrite negb_involutive, Z.eqb_eq. intuition congruence.
  - intuition congruence.
  - intuition congruence.
  - rewrite negb_involutive, String.eqb_eq. intuition congruence.
Qed.

Lemma not_id_iff id : JS.not (id_value id) = true ↔ id_missing_or_empty id.
Proof.
  rewrite not_true_iff_falsy.
  unfold falsy, missing_or_empty, id_missing_or_empty.
  destruct id as [s | ]; simpl; intuition congruence.
Qed.

Lemma not_false_iff_truthy v : JS.not v = false ↔ ToBoolean v = true.
Proof. unfold JS.not. destruct (ToBoolean v); simpl; intuition congruence. Qed.

Lemma ge_strings sx sy : JS.ge (JStr sx) (JStr sy) = negb (String.ltb sx sy).
Proof. unfold JS.ge. simpl. destruct (String.ltb sx sy); reflexivity. Qed.

(** Against a number the comparison is numeric, whatever the other side
    is. *)
Lemma ge_number val n : JS.ge val (JNum n) = number_leb n (ToNumber val).
Proof.
  unfold JS.ge, IsLessThan, number_leb.
  destruct val as [ | m | s]; cbn [ToNumber];
    [ | | generalize (StringToNumber s); intros m].
  - by destruct n.
  - destruct m as [ | z | k | [ | ]], n as [ | z' | k' | [ | ]];
      simpl; try reflexivity;
      match goal with |- context [?a <? ?b] => by destruct (a <? b) end.
  - destruct m as [ | z | k | [ | ]], n as [ | z' | k' | [ | ]];
      simpl; try reflexivity;
      match goal with |- context [?a <? ?b] => by destruct (a <? b) end.
Qed.

Lemma collect_app jobValue entries jobs :
  collect jobValue entries jobs = jobs ++ kept jobValue entries.
Proof.
  revert jobs. unfold kept.
  induction entries as [ | [id val] rest IH]; intros jobs; simpl.
  - by rewrite app_nil_r.
  - rewrite IH. unfold keeps at 2; simpl.
    destruct (JS.not jobValue || JS.ge val jobValue); simpl.
    + by rewrite <- app_assoc.
    + reflexivity.
Qed.

Lemma collect_kept jobValue entries :
  collect jobValue entries [] = kept jobValue entries.
Proof. apply collect_app. Qed.

Lemma kept_unfiltered jobValue entries :
  JS.not jobValue = true → kept jobValue entries = to_job <$> entries.
Proof.
  intros Hnot. unfold kept. f_equal.
  induction entries as [ | e rest IH]; [reflexivity | ].
  simpl. unfold keeps at 1. rewrite Hnot. simpl. by rewrite IH.
Qed.

(** ** Facts about numbers *)

Lemma of_units_sign k : (number_sign (of_units k) <=? 0) = (k <=? 0).
Proof.
  unfold of_units.
  assert (Hpos : 0 < 2 ^ 1074) by (apply Z.pow_pos_nonneg; lia).
  revert Hpos. generalize (2 ^ 1074). intros P HP.
  destruct (Z.eqb_spec (k mod P) 0) as [Hmod | Hmod]; [ | reflexivity].
  apply Z.div_exact in Hmod; [ | lia]. cbn [number_sign].
  destruct (Z.leb_spec (k / P) 0), (Z.leb_spec k 0); (reflexivity || nia).
Qed.

Lemma round_nearest_even_sign m s :
  0 ≤ m → 0 ≤ s →
  0 ≤ round_nearest_even m s ∧ (2 ^ s ≤ m → 0 < round_nearest_even m s).
Proof.
  intros Hm Hs. unfold round_nearest_even. cbv zeta.
  assert (Hpow : 0 < 2 ^ s) by (apply Z.pow_pos_nonneg; lia).
  assert (Hq : 0 ≤ m / 2 ^ s) by (apply Z.div_pos; lia).
  assert (Hq1 : 2 ^ s ≤ m → 0 < m / 2 ^ s) by (intros; apply Z.div_str_pos; lia).
  revert Hq Hq1. generalize (m / 2 ^ s). intros q Hq Hq1.
  destruct (_ || _); (split; [lia | intros Hle; specialize (Hq1 Hle); lia]).
Qed.

(** Rounding keeps the sign, and a whole number of units that is not zero
    does not round to zero. *)
Lemma round_quarters_sign d :
  (number_sign (round_quarters (4 * d)) <=? 0) = (d <=? 0).
Proof.
  destruct (Z.eq_dec d 0) as [-> | Hnz]; [by vm_compute | ].
  unfold round_quarters. cbv zeta.
  set (m := Z.abs (4 * d)).
  set (s := Z.max 2 (Z.log2 m - 52)).
  assert (Hs : 2 ≤ s) by (subst s; lia).
  assert (Hle : d ≠ 0 → 2 ^ s ≤ m).
  { intros Hd. assert (Hm : 4 ≤ m) by (subst m; lia).
    destruct (Z.max_spec 2 (Z.log2 m - 52)) as [[_ Hmax] | [_ Hmax]];
      fold s in Hmax; rewrite Hmax.
    - etransitivity; [apply (Z.pow_le_mono_r 2 _ (Z.log2 m)); lia | ].
      apply Z.log2_spec. lia.
    - change (2 ^ 2) with 4. lia. }
  destruct (round_nearest_even_sign m s) as [Hnonneg Hpos];
    [subst m; lia | lia | ].
  assert (Hpow : 0 < 2 ^ (s - 2)) by (apply Z.pow_pos_nonneg; lia).
  set (r := round_nearest_even m s * 2 ^ (s - 2)).
  assert (Hr : 0 ≤ r ∧ (d ≠ 0 → 0 < r)).
  { subst r. split; [nia | ]. intros Hd. specialize (Hpos (Hle Hd)). nia. }
  assert (Hbig : 0 < 2 ^ 2098) by (apply Z.pow_pos_nonneg; lia).
  revert Hbig. generalize (2 ^ 2098). intros B HB.
  destruct (Z.leb_spec B r) as [Hover | Hin].
  - cbn [number_sign].
    destruct (Z.ltb_spec (4 * d) 0), (Z.leb_spec d 0); try reflexivity; lia.
  - rewrite of_units_sign.
    destruct Hr as [Hr0 Hr1].
    destruct (Z.leb_spec (Z.sgn (4 * d) * r) 0), (Z.leb_spec d 0);
      try reflexivity.
    + assert (d ≠ 0) by lia. specialize (Hr1 ltac:(assumption)). nia.
    + nia.
Qed.

Lemma number_leb_total x y :
  x ≠ NaN → y ≠ NaN → number_leb x y = false → number_leb y x = true.
Proof.
  unfold number_leb, number_ltb, units. generalize (2 ^ 1074). intros P.
  destruct x as [ | zx | kx | [ | ]], y as [ | zy | ky | [ | ]];
    cbn [negb andb]; try congruence;
    rewrite negb_false_iff, negb_true_iff, Z.ltb_lt, Z.ltb_ge; lia.
Qed.

Lemma number_leb_trans x y z :
  number_leb x y = true → number_leb y z = true → number_leb x z = true.
Proof.
  unfold number_leb, number_ltb, units. generalize (2 ^ 1074). intros P.
  destruct x as [ | zx | kx | [ | ]], y as [ | zy | ky | [ | ]],
    z as [ | zz | kz | [ | ]];
    cbn [negb andb]; try congruence;
    rewrite !negb_true_iff, !Z.ltb_ge; lia.
Qed.

(** The sign of a difference tells the order of its terms. *)
Lemma number_sub_sign x y :
  x ≠ NaN → y ≠ NaN →
  (number_sign (number_sub x y) <=? 0) = number_leb x y.
Proof.
  intros Hx Hy.
  destruct x as [ | zx | kx | [ | ]], y as [ | zy | ky | [ | ]];
    try congruence; try reflexivity;
    cbn [number_sub number_leb number_ltb];
    rewrite round_quarters_sign;
    match goal with |- (?a - ?b <=? 0) = negb (?b <? ?a) =>
      destruct (Z.leb_spec (a - b) 0), (Z.ltb_spec b a);
        (reflexivity || lia)
    end.
Qed.

(** ** The sort, for a comparator that decides a total preorder *)

Section Sort.
Context {A : Type} (comparefn : A → A → number) (leb : A → A → bool)
  (good : A → Prop).
Hypothesis comparefn_leb :
  ∀ a b, good a → good b → (SortCompare comparefn a b <=? 0) = leb a b.
Hypothesis leb_total :
  ∀ a b, good a → good b → leb a b = false → leb b a = true.
Hypothesis leb_trans :
  ∀ a b c, leb a b = true → leb b c = true → leb a c = true.

Lemma sort_insert_Permutation x l : sort_insert comparefn x l ≡ₚ x :: l.
Proof.
  induction l as [ | y l IH]; simpl; [done | ].
  destruct (SortCompare comparefn x y <=? 0); [done | ].
  rewrite IH. apply Permutation_swap.
Qed.

Lemma sort_Permutation l : JS.sort comparefn l ≡ₚ l.
Proof.
  induction l as [ | x l IH]; simpl; [done | ].
  by rewrite sort_insert_Permutation, IH.
Qed.

Lemma sort_good l : Forall good l → Forall good (JS.sort comparefn l).
Proof. intros Hl. by rewrite sort_Permutation. Qed.

Lemma sort_insert_sorted x l :
  good x → Forall good l →
  StronglySorted (λ a b, leb a b = true) l →
  StronglySorted (λ a b, leb a b = true) (sort_insert comparefn x l).
Proof.
  intros Hx Hl Hs.
  induction Hs as [ | y l Hs IH Hy]; simpl.
  - repeat constructor.
  - apply Forall_cons in Hl as [Hgy Hl].
    rewrite comparefn_leb by done.
    destruct (leb x y) eqn:Hxy.
    + constructor; [by constructor | ].
      constructor; [done | ].
      eapply Forall_impl; [exact Hy | ]. intros z Hyz. by eapply leb_trans.
    + constructor; [by apply IH | ].
      rewrite sort_insert_Permutation.
      constructor; [by apply leb_total | done].
Qed.

Lemma sort_sorted l :
  Forall good l → StronglySorted (λ a b, leb a b = true) (JS.sort comparefn l).
Proof.
  induction l as [ | x l IH]; simpl; intros Hl; [constructor | ].
  apply Forall_cons in Hl as [Hx Hl].
  apply sort_insert_sorted; auto using sort_good.
Qed.

(** Stability: among the elements that are equal to [c] in the preorder,
    the order is the original one. *)
Lemma sort_insert_stable c x l :
  good x → Forall good l →
  List.filter (λ a, leb a c && leb c a) (sort_insert comparefn x l) =
  List.filter (λ a, leb a c && leb c a) (x :: l).
Proof.
  intros Hx Hl.
  induction l as [ | y l IH]; [done | ].
  apply Forall_cons in Hl as [Hy Hl].
  cbn [sort_insert]. rewrite comparefn_leb by done.
  destruct (leb x y) eqn:Hxy; [done | ].
  cbn [List.filter] in *. rewrite IH by done.
  destruct (leb x c) eqn:Hxc, (leb c x) eqn:Hcx,
    (leb y c) eqn:Hyc, (leb c y) eqn:Hcy; cbn [andb]; try reflexivity.
  rewrite (leb_trans x c y) in Hxy by done. discriminate.
Qed.

Lemma sort_stable c l :
  Forall good l →
  List.filter (λ a, leb a c && leb c a) (JS.sort comparefn l) =
  List.filter (λ a, leb a c && leb c a) l.
Proof.
  induction l as [ | x l IH]; intros Hl; [done | ].
  apply Forall_cons in Hl as [Hx Hl].
  cbn [JS.sort]. rewrite sort_insert_stable by auto using sort_good.
  cbn [List.filter]. by rewrite IH.
Qed.

End Sort.

Lemma byJobValue_leb a b :
  numeric (JobValue a) → numeric (JobValue b) →
  (SortCompare byJobValue a b <=? 0) = value_leb a b.
Proof. apply number_sub_sign. Qed.

Lemma value_leb_total a b :
  numeric (JobValue a) → numeric (JobValue b) →
  value_leb a b = false → value_leb b a = true.
Proof. apply number_leb_total. Qed.

Lemma value_leb_trans a b c :
  value_leb a b = true → value_leb b c = true → value_leb a c = true.
Proof. apply number_leb_trans. Qed.

Lemma value_leb_value_le a b : value_leb a b = true → value_le a b.
Proof.
  unfold value_leb, value_le.
  destruct (value a), (value b); done.
Qed.

Lemma StronglySorted_weaken {A} (R R' : A → A → Prop) l :
  (∀ a b, R a b → R' a b) → StronglySorted R l → StronglySorted R' l.
Proof.
  intros HR Hs. induction Hs as [ | x l Hs IH Hx]; constructor; [done | ].
  eapply Forall_impl; [exact Hx | auto].
Qed.

Lemma sort_byJobValue_sorted jobs :
  Forall (λ a, numeric (JobValue a)) jobs →
  StronglySorted (λ a b, value_leb a b = true) (JS.sort byJobValue jobs).
Proof.
  apply (sort_sorted byJobValue value_leb (λ a, numeric (JobValue a))
           byJobValue_leb value_leb_total value_leb_trans).
Qed.

Lemma sort_byJobValue_ascending jobs :
  Forall (λ a, numeric (JobValue a)) jobs → ascending (JS.sort byJobValue jobs).
Proof.
  intros Hnum. unfold ascending.
  apply StronglySorted_weaken with (R := λ a b, value_leb a b = true);
    [apply value_leb_value_le | by apply sort_byJobValue_sorted].
Qed.

Lemma sort_byJobValue_stable c jobs :
  Forall (λ a, numeric (JobValue a)) jobs →
  List.filter (λ a, same_value a c) (JS.sort byJobValue jobs) =
  List.filter (λ a, same_value a c) jobs.
Proof.
  apply (sort_stable byJobValue value_leb (λ a, numeric (JobValue a))
           byJobValue_leb value_leb_trans).
Qed.

Lemma kept_numeric jobValue entries :
  Forall (λ e, numeric e.2) entries →
  Forall (λ a, numeric (JobValue a)) (kept jobValue entries).
Proof.
  intros Hnum. unfold kept. rewrite Forall_fmap.
  induction Hnum as [ | e l He Hl IH]; simpl; [constructor | ].
  destruct (keeps jobValue e); [constructor | ]; done.
Qed.

(** ** The operations as functions of the registry *)

Lemma validateJobInput_run id jobValue r :
  validateJobInput id jobValue r =
    if decide (id_missing_or_empty id ∨ falsy jobValue)
    then (Throw InvalidInput, r) else (Ok tt, r).
Proof.
  unfold validateJobInput.
  destruct (JS.not (id_value id)) eqn:Hid; simpl.
  - rewrite decide_True; [done | ]. left. by apply not_id_iff.
  - destruct (JS.not jobValue) eqn:Hval.
    + rewrite decide_True; [done | ]. right. by apply not_true_iff_falsy.
    + rewrite decide_False; [done | ].
      rewrite <- not_id_iff, <- not_true_iff_falsy. intros [? | ?]; congruence.
Qed.

Lemma addJob_begin_run id jobValue r :
  addJob_begin id jobValue r =
    if decide (id_missing_or_empty id ∨ falsy jobValue) then (Throw InvalidInput, r)
    else if Map_has id (jobData r) then (Throw AlreadyExists, r)
    else if bool_decide (id ∈ lockedJobs r) then (Throw AlreadyProcessing, r)
    else lockedJobs_add id r.
Proof.
  unfold addJob_begin, bind. rewrite validateJobInput_run.
  destruct (decide _); [done | ].
  unfold jobData_has, lockedJobs_has.
  destruct (Map_has id (jobData r)); [done | ].
  by destruct (bool_decide (id ∈ lockedJobs r)).
Qed.

Lemma addJob_resume_run id jobValue r :
  addJob_resume id jobValue r =
    (Ok tt, {| jobData := Map_set id jobValue (jobData r);
               lockedJobs := lockedJobs r ∖ {[id]};
               cache := delete "allJobs" (cache r) |}).
Proof. reflexivity. Qed.

Lemma removeJob_begin_run id r :
  removeJob_begin id r =
    if decide (id_missing_or_empty id) then (Throw InvalidInput, r)
    else if negb (Map_has id (jobData r)) then (Throw NotFound, r)
    else if bool_decide (id ∈ lockedJobs r) then (Throw AlreadyProcessing, r)
    else lockedJobs_add id r.
Proof.
  unfold removeJob_begin, bind. rewrite validateJobInput_run.
  destruct (decide (id_missing_or_empty id)) as [Hid | Hid].
  - rewrite decide_True; [done | by left].
  - rewrite decide_False.
    + unfold jobData_has, lockedJobs_has.
      destruct (Map_has id (jobData r)); simpl; [ | done].
      by destruct (bool_decide (id ∈ lockedJobs r)).
    + unfold falsy, missing_or_empty. intros [? | [[? | ?] | [? | ?]]]; done.
Qed.

Lemma removeJob_resume_run id r :
  removeJob_resume id r =
    (Ok tt, {| jobData := Map_delete id (jobData r);
               lockedJobs := lockedJobs r ∖ {[id]};
               cache := delete "allJobs" (cache r) |}).
Proof. reflexivity. Qed.

Lemma addJob_run id jobValue r :
  addJob id jobValue r =
    match addJob_begin id jobValue r with
    | (Ok _, r') => addJob_resume id jobValue r'
    | (Throw e, r') => (Throw e, r')
    end.
Proof. reflexivity. Qed.

Lemma removeJob_run id r :
  removeJob id r =
    match removeJob_begin id r with
    | (Ok _, r') => removeJob_resume id r'
    | (Throw e, r') => (Throw e, r')
    end.
Proof. reflexivity. Qed.

(** The registry with a freshly computed listing written to the cache. *)
Lemma getAllJobs_run now jobValue r :
  getAllJobs now jobValue r =
    let recompute :=
      (Ok (listing jobValue r),
       {| jobData := jobData r;
          lockedJobs := lockedJobs r;
          cache := <["allJobs" := NodeCache_wrap (listing jobValue r) listingTTL now]>
                     (cache r) |}) in
    match cached now r with
    | Some hit => if JS.not jobValue then (Ok hit, r) else recompute
    | None => recompute
    end.
Proof.
  destruct r as [store locks data].
  unfold getAllJobs, cached, bind, cache_get, NodeCache_get, listing. simpl.
  destruct (data !! "allJobs") as [d | ] eqn:Hd; simpl.
  - destruct (NodeCache_check now d); simpl.
    + destruct (JS.not jobValue); [done | ].
      unfold jobData_entries, cache_set, ret, Map_entries, NodeCache_set; simpl.
      by rewrite collect_kept.
    + unfold jobData_entries, cache_set, ret, Map_entries, NodeCache_set; simpl.
      by rewrite collect_kept, insert_delete_eq.
  - unfold jobData_entries, cache_set, ret, Map_entries, NodeCache_set; simpl.
    by rewrite collect_kept.
Qed.

Lemma getAllJobs_frame now jobValue r :
  jobData (getAllJobs now jobValue r).2 = jobData r ∧
  lockedJobs (getAllJobs now jobValue r).2 = lockedJobs r.
Proof.
  rewrite getAllJobs_run. cbv zeta.
  destruct (cached now r); [destruct (JS.not jobValue) | ]; done.
Qed.

Lemma getAllJobs_completes now jobValue r :
  ∃ jobs, (getAllJobs now jobValue r).1 = Ok jobs.
Proof.
  rewrite getAllJobs_run. cbv zeta.
  destruct (cached now r); [destruct (JS.not jobValue) | ]; eauto.
Qed.

(** ** Facts about [Map] *)

Section MapFacts.
Context {K V : Type} `{EqDecision K}.
Implicit Types (k : K) (v : V) (m : list (K * V)).

Lemma Map_get_set k v m : Map_get k (Map_set k v m) = Some v.
Proof.
  induction m as [ | [k' v'] m IH]; simpl.
  - by rewrite decide_True.
  - destruct (decide (k = k')) as [-> | Hne]; simpl.
    + by rewrite decide_True.
    + by rewrite decide_False.
Qed.

Lemma Map_has_set k v m : Map_has k (Map_set k v m) = true.
Proof. unfold Map_has. by rewrite Map_get_set. Qed.

Lemma Map_set_elem_of k v m : (k, v) ∈ Map_set k v m.
Proof.
  induction m as [ | [k' v'] m IH]; simpl.
  - apply list_elem_of_here.
  - destruct (decide (k = k')).
    + apply list_elem_of_here.
    + by apply list_elem_of_further.
Qed.

Lemma Map_set_Forall (P : K * V → Prop) k v m :
  P (k, v) → Forall P m → Forall P (Map_set k v m).
Proof.
  intros Hkv Hm. induction Hm as [ | [k' v'] m Hx Hm IH]; simpl.
  - by repeat constructor.
  - destruct (decide (k = k')); by constructor.
Qed.

Lemma Map_delete_Forall (P : K * V → Prop) k m :
  Forall P m → Forall P (Map_delete k m).
Proof.
  intros Hm. induction Hm as [ | [k' v'] m Hx Hm IH]; simpl.
  - constructor.
  - destruct (decide (k = k')); [done | by constructor].
Qed.

Lemma Map_get_elem_of k v m : Map_get k m = Some v → (k, v) ∈ m.
Proof.
  induction m as [ | [k' v'] m IH]; simpl; [done | ].
  destruct (decide (k = k')) as [-> | Hne].
  - intros [= ->]. apply list_elem_of_here.
  - intros Hget. by apply list_elem_of_further, IH.
Qed.

End MapFacts.

Lemma elem_of_kept a jobValue entries :
  a ∈ kept jobValue entries ↔
  ∃ e, e ∈ entries ∧ keeps jobValue e = true ∧ a = to_job e.
Proof.
  unfold kept. rewrite list_elem_of_fmap. split.
  - intros (e & -> & He). apply list_elem_of_In, filter_In in He as [He Hk].
    exists e. by rewrite list_elem_of_In.
  - intros (e & He & Hk & ->). exists e. split; [done | ].
    apply list_elem_of_In, filter_In. by rewrite <- list_elem_of_In.
Qed.

Lemma elem_of_listing a jobValue r :
  a ∈ listing jobValue r ↔
  ∃ e, e ∈ jobData r ∧ keeps jobValue e = true ∧ a = to_job e.
Proof. unfold listing. by rewrite sort_Permutation, elem_of_kept. Qed.

(** ** Invariants of the event loop *)

Lemma run_app es1 es2 s : run (es1 ++ es2) s = run es2 (run es1 s).
Proof. revert s. induction es1 as [ | e es1 IH]; intros s; simpl; [done | apply IH]. Qed.

Lemma dispatch_locks_match_timers e s :
  locks_match_timers s → locks_match_timers (dispatch e s).2.
Proof.
  destruct s as [r ts]. unfold locks_match_timers. simpl.
  intros [Hnodup Hlocks].
  assert (Hpark : ∀ id k, continuation_id k = id →
    id ∉ lockedJobs r →
    NoDup (continuation_id <$> ts ++ [k]) ∧
    ∀ id', id' ∈ {[id]} ∪ lockedJobs r ↔ id' ∈ continuation_id <$> ts ++ [k]).
  { intros id k Hk Hfree. rewrite fmap_app. simpl. rewrite Hk. split.
    - apply NoDup_app. split; [done | ]. split; [ | apply NoDup_singleton].
      intros id' Hin ->%list_elem_of_singleton. by apply Hfree, Hlocks.
    - intros id'. rewrite elem_of_union, elem_of_app, Hlocks.
      rewrite elem_of_singleton, list_elem_of_singleton. tauto. }
  destruct e as [id jobValue | id | now jobValue | ]; simpl.
  - rewrite addJob_begin_run.
    destruct (decide _); [done | ].
    destruct (Map_has id (jobData r)); [done | ].
    destruct (bool_decide (id ∈ lockedJobs r)) eqn:Hheld; [done | ].
    apply bool_decide_eq_false in Hheld. simpl. by apply Hpark.
  - rewrite removeJob_begin_run.
    destruct (decide _); [done | ].
    destruct (negb (Map_has id (jobData r))); [done | ].
    destruct (bool_decide (id ∈ lockedJobs r)) eqn:Hheld; [done | ].
    apply bool_decide_eq_false in Hheld. simpl. by apply Hpark.
  - destruct (getAllJobs now jobValue r) as [res r'] eqn:Hget. simpl.
    pose proof (getAllJobs_frame now jobValue r) as [_ Hl].
    rewrite Hget in Hl. simpl in Hl. by rewrite Hl.
  - destruct ts as [ | k ts]; simpl; [done | ].
    simpl in Hnodup. apply NoDup_cons in Hnodup as [Hk Hnodup].
    assert (Hheap : lockedJobs (resume k r).2 = lockedJobs r ∖ {[continuation_id k]})
      by (by destruct k).
    destruct (resume k r) as [res r'] eqn:Hres. simpl in *.
    split; [done | ]. intros id. rewrite Hheap, elem_of_difference, Hlocks.
    rewrite elem_of_cons, elem_of_singleton. split.
    + intros [[-> | Hin] Hne]; done.
    + intros Hin. split; [by right | ]. by intros ->.
Qed.

Lemma run_locks_match_timers es s :
  locks_match_timers s → locks_match_timers (run es s).
Proof.
  revert s. induction es as [ | e es IH]; intros s Hs; simpl; [done | ].
  by apply IH, dispatch_locks_match_timers.
Qed.

Lemma boot_locks_match_timers : locks_match_timers boot.
Proof.
  split; simpl; [constructor | ].
  intros id. rewrite elem_of_nil. set_solver.
Qed.

Lemma truthy_not_falsy jobValue : ¬ falsy jobValue → ToBoolean jobValue = true.
Proof.
  intros Hv. apply not_false_iff_truthy.
  destruct (JS.not jobValue) eqn:Hnot; [ | done].
  by apply not_true_iff_falsy in Hnot.
Qed.

Lemma dispatch_values_truthy e s :
  values_truthy (jobData (heap s)) ∧ Forall continuation_truthy (timers s) →
  values_truthy (jobData (heap (dispatch e s).2)) ∧
  Forall continuation_truthy (timers (dispatch e s).2).
Proof.
  destruct s as [r ts]. unfold values_truthy. simpl. intros [Hstore Htimers].
  destruct e as [id jobValue | id | now jobValue | ]; simpl.
  - rewrite addJob_begin_run.
    destruct (decide _) as [Hbad | Hgood]; [done | ].
    destruct (Map_has id (jobData r)); [done | ].
    destruct (bool_decide (id ∈ lockedJobs r)); [done | ].
    simpl. split; [done | ].
    apply Forall_app. split; [done | ].
    constructor; [ | constructor]. simpl.
    apply truthy_not_falsy. tauto.
  - rewrite removeJob_begin_run.
    destruct (decide _); [done | ].
    destruct (negb (Map_has id (jobData r))); [done | ].
    destruct (bool_decide (id ∈ lockedJobs r)); [done | ].
    simpl. split; [done | ].
    apply Forall_app. split; [done | by repeat constructor].
  - destruct (getAllJobs now jobValue r) as [res r'] eqn:Hget. simpl.
    pose proof (getAllJobs_frame now jobValue r) as [Hd _].
    rewrite Hget in Hd. simpl in Hd. by rewrite Hd.
  - destruct ts as [ | k ts]; simpl; [done | ].
    apply Forall_cons in Htimers as [Hk Htimers].
    destruct k as [id jobValue | id]; simpl in *.
    + split; [ | done]. by apply Map_set_Forall.
    + split; [ | done]. by apply Map_delete_Forall.
Qed.

Lemma run_values_truthy es s :
  values_truthy (jobData (heap s)) ∧ Forall continuation_truthy (timers s) →
  values_truthy (jobData (heap (run es s))).
Proof.
  revert s. induction es as [ | e es IH]; intros s Hs; simpl; [tauto | ].
  by apply IH, dispatch_values_truthy.
Qed.

Lemma resume_completes k r : (resume k r).1 = Ok tt.
Proof. by destruct k. Qed.

Lemma getAllJobs_filtered_run now jobValue r :
  ToBoolean jobValue = true →
  getAllJobs now jobValue r =
    (Ok (listing jobValue r),
     {| jobData := jobData r;
        lockedJobs := lockedJobs r;
        cache := <["allJobs" := NodeCache_wrap (listing jobValue r) listingTTL now]>
                   (cache r) |}).
Proof.
  intros Htrue. apply not_false_iff_truthy in Htrue.
  rewrite getAllJobs_run. cbv zeta. rewrite Htrue.
  by destruct (cached now r).
Qed.

Lemma getAllJobs_miss_run now jobValue r :
  cached now r = None →
  getAllJobs now jobValue r =
    (Ok (listing jobValue r),
     {| jobData := jobData r;
        lockedJobs := lockedJobs r;
        cache := <["allJobs" := NodeCache_wrap (listing jobValue r) listingTTL now]>
                   (cache r) |}).
Proof. intros Hmiss. rewrite getAllJobs_run. cbv zeta. by rewrite Hmiss. Qed.

Lemma getAllJobs_hit_run now jobValue r hit :
  JS.not jobValue = true → cached now r = Some hit →
  getAllJobs now jobValue r = (Ok hit, r).
Proof.
  intros Hnot Hhit. rewrite getAllJobs_run. cbv zeta. by rewrite Hhit, Hnot.
Qed.

(** What the cache serves, from the entry under ['allJobs']. *)
Lemma cached_lookup now r :
  cached now r =
    match cache r !! "allJobs" with
    | Some d => if NodeCache_check now d then Some (v d) else None
    | None => None
    end.
Proof.
  unfold cached, NodeCache_get.
  destruct (cache r !! "allJobs") as [d | ]; [ | done].
  by destruct (NodeCache_check now d).
Qed.

Lemma cached_invalidated now r jobs locks :
  cached now {| jobData := jobs; lockedJobs := locks;
                cache := delete "allJobs" (cache r) |} = None.
Proof. rewrite cached_lookup. simpl. by rewrite lookup_delete_eq. Qed.

(** After a recomputation at [now], the listing is served up to and
    including [now + listingTTL * 1000], and no longer. *)
Lemma cached_after_recompute now now' jobs r store locks :
  0 ≤ now →
  cached now' {| jobData := store; lockedJobs := locks;
                 cache := <["allJobs" := NodeCache_wrap jobs listingTTL now]> (cache r) |} =
    if now + listingTTL * 1000 <? now' then None else Some jobs.
Proof.
  intros Hnow. rewrite cached_lookup. simpl. rewrite lookup_insert_eq.
  unfold NodeCache_check, NodeCache_wrap, listingTTL. simpl.
  destruct (Z.eqb_spec (now + 10 * 1000) 0); [lia | ]. simpl.
  by destruct (now + 10 * 1000 <? now').
Qed.

Lemma addJob_succeeds_alone id jobValue r :
  completion (addJob id jobValue) r = Ok tt →
  addJob_succeeds id jobValue r (after (addJob id jobValue) r).
Proof.
  unfold completion, after, addJob_succeeds. rewrite addJob_run.
  destruct (addJob_begin id jobValue r) as [[[] | e] r1] eqn:Hbegin; [ | done].
  intros _. split; [unfold completion; by rewrite Hbegin | by exists r1].
Qed.

Lemma removeJob_succeeds_alone id r :
  completion (removeJob id) r = Ok tt →
  removeJob_succeeds id r (after (removeJob id) r).
Proof.
  unfold completion, after, removeJob_succeeds. rewrite removeJob_run.
  destruct (removeJob_begin id r) as [[[] | e] r1] eqn:Hbegin; [ | done].
  intros _. split; [unfold completion; by rewrite Hbegin | by exists r1].
Qed.

Lemma to_job_inj e e' : to_job e = to_job e' → e = e'.
Proof.
  destruct e as [id val], e' as [id' val']. unfold to_job. cbn.
  intros Heq. injection Heq as -> ->. reflexivity.
Qed.

(** ** The properties of the specification *)

(** C1 (the code departs from it).  The filter of a listing request is
    compared with [>=] as it arrives.  A request hands text, the stored
    values are text, and two strings are compared by code units, with no
    conversion to numbers: after add("A","5") and add("B","10"), listing
    with the filter "6" returns no entry at all, since "10" >= "6" is
    false.  The same calls with the numbers 5, 10 and 6 return the single
    entry {B,10}, and so does any comparison in which one side is a
    number. *)
Theorem text_filter_compares_code_units :
  (∀ sx sy, JS.ge (JStr sx) (JStr sy) = negb (String.ltb sx sy)) ∧
  JS.ge (JStr "10") (JStr "6") = false ∧
  (∀ now,
     let r := after (addJob (Some "B") (JStr "10"))
                (after (addJob (Some "A") (JStr "5")) initial) in
     completion (getAllJobs now (JStr "6")) r = Ok []) ∧
  (∀ now,
     let r := after (addJob (Some "B") (JNum (Num 10)))
                (after (addJob (Some "A") (JNum (Num 5))) initial) in
     completion (getAllJobs now (JNum (Num 6))) r =
       Ok [{| JobID := Some "B"; JobValue := JNum (Num 10) |}]).
Proof.
  split; [apply ge_strings | ].
  split; [reflexivity | ].
  split; intros now; vm_compute; reflexivity.
Qed.

(** C2 (the code departs from it).  A filtered listing request writes its
    result under 'allJobs' like an unfiltered one: with A=5 and B=7 stored
    and nothing cached, listing with the filter "6" at time 0 returns
    [{B,7}] and caches it until time 10000; the unfiltered request at time 1
    is then served [{B,7}], although the store holds A and B. *)
Theorem filtered_listing_overwrites_cache :
  let r := after (addJob (Some "B") (JStr "7"))
             (after (addJob (Some "A") (JStr "5")) initial) in
  let B7 := {| JobID := Some "B"; JobValue := JStr "7" |} in
  let A5 := {| JobID := Some "A"; JobValue := JStr "5" |} in
  let r' := after (getAllJobs 0 (JStr "6")) r in
  cache r !! "allJobs" = None ∧
  completion (getAllJobs 0 (JStr "6")) r = Ok [B7] ∧
  cache r' !! "allJobs" = Some {| t := 10000; v := [B7] |} ∧
  completion (getAllJobs 1 JUndefined) r' = Ok [B7] ∧
  listing JUndefined r' = [A5; B7].
Proof. vm_compute. repeat split; reflexivity. Qed.

(** C3, counterexample.  addJob("A", 0) on the empty registry: the
    identifier is neither missing nor empty, the value 0 is neither missing
    nor empty, the store does not contain "A" and "A" is not locked, yet the
    call fails, with InvalidInput. *)
Lemma addJob_invalid_without_missing_or_empty :
  ¬ id_missing_or_empty (Some "A") ∧
  ¬ missing_or_empty (JNum (Num 0)) ∧
  Map_has (Some "A") (jobData initial) = false ∧
  (Some "A" ∉ lockedJobs initial) ∧
  completion (addJob (Some "A") (JNum (Num 0))) initial = Throw InvalidInput.
Proof.
  split; [by intros [? | ?] | ].
  split; [by intros [? | ?] | ].
  split; [reflexivity | ].
  split; [set_solver | reflexivity].
Qed.

(** C3, as amended.  addJob(id, value) fails with InvalidInput when id is
    missing or empty or value is falsy (missing, empty, 0 or NaN); otherwise
    with AlreadyExists when the store contains id; otherwise with
    AlreadyProcessing when id is in the lock set; otherwise it succeeds.
    The checks run in that order, all before the call first waits, and a
    failing call raises that one error. *)
Theorem addJob_checks_in_order id jobValue r :
  completion (addJob_begin id jobValue) r =
    (if decide (id_missing_or_empty id ∨ falsy jobValue) then Throw InvalidInput
     else if Map_has id (jobData r) then Throw AlreadyExists
     else if bool_decide (id ∈ lockedJobs r) then Throw AlreadyProcessing
     else Ok tt) ∧
  completion (addJob id jobValue) r = completion (addJob_begin id jobValue) r.
Proof.
  unfold completion. rewrite addJob_run, addJob_begin_run.
  destruct (decide _); [done | ].
  destruct (Map_has id (jobData r)); [done | ].
  by destruct (bool_decide (id ∈ lockedJobs r)).
Qed.

(** C5.  removeJob(id) fails with InvalidInput when id is missing or empty,
    and the value 100 given to the validator never makes it fail; otherwise
    with NotFound when the store does not contain id; otherwise with
    AlreadyProcessing when id is in the lock set; otherwise it succeeds. *)
Theorem removeJob_checks_in_order id r :
  completion (removeJob_begin id) r =
    (if decide (id_missing_or_empty id) then Throw InvalidInput
     else if negb (Map_has id (jobData r)) then Throw NotFound
     else if bool_decide (id ∈ lockedJobs r) then Throw AlreadyProcessing
     else Ok tt) ∧
  completion (removeJob id) r = completion (removeJob_begin id) r ∧
  completion (validateJobInput id (JNum (Num 100))) r =
    (if decide (id_missing_or_empty id) then Throw InvalidInput else Ok tt).
Proof.
  unfold completion. rewrite removeJob_run, removeJob_begin_run.
  rewrite validateJobInput_run.
  split; [ | split].
  - destruct (decide _); [done | ].
    destruct (negb (Map_has id (jobData r))); [done | ].
    by destruct (bool_decide (id ∈ lockedJobs r)).
  - destruct (decide _); [done | ].
    destruct (negb (Map_has id (jobData r))); [done | ].
    by destruct (bool_decide (id ∈ lockedJobs r)).
  - destruct (decide (id_missing_or_empty id)) as [Hid | Hid].
    + rewrite decide_True; [done | by left].
    + rewrite decide_False; [done | ].
      unfold falsy, missing_or_empty. intros [? | [[? | ?] | [? | ?]]]; done.
Qed.

(** C4 (the code departs from it).  A successful addJob leaves the store
    with the job and nothing cached, yet a later listing need not show the
    job: after addJob("A","5"), the request with the filter "6" at time 0
    returns no entry and, by the defect of C2, caches that empty listing
    under 'allJobs'; the unfiltered request at time 1 is served it, and
    returns no entry although A is stored. *)
Theorem later_listing_misses_addition :
  let r := after (addJob (Some "A") (JStr "5")) initial in
  let r1 := after (getAllJobs 0 (JStr "6")) r in
  completion (addJob (Some "A") (JStr "5")) initial = Ok tt ∧
  Map_has (Some "A") (jobData r) = true ∧
  cache r !! "allJobs" = None ∧
  completion (getAllJobs 0 (JStr "6")) r = Ok [] ∧
  cache r1 !! "allJobs" = Some {| t := 10000; v := [] |} ∧
  completion (getAllJobs 1 JUndefined) r1 = Ok [] ∧
  Map_get (Some "A") (jobData r1) = Some (JStr "5").
Proof. vm_compute. repeat split; reflexivity. Qed.

(** After a successful addJob(id, value) the store contains id and
    nothing is cached under 'allJobs', so that a listing request made next,
    at any time, is computed from the store: an unfiltered one contains
    {id, value}, a filtered one contains it exactly when the value passes
    the filter.  After a successful removeJob the cached listing is gone in
    the same way. *)
Theorem successful_mutation_invalidates_listing id jobValue r r' now filter :
  (addJob_succeeds id jobValue r r' →
     Map_has id (jobData r') = true ∧
     cache r' !! "allJobs" = None ∧
     cached now r' = None ∧
     completion (getAllJobs now filter) r' = Ok (listing filter r') ∧
     (to_job (id, jobValue) ∈ listing filter r' ↔ keeps filter (id, jobValue) = true) ∧
     (JS.not filter = true → to_job (id, jobValue) ∈ listing filter r')) ∧
  (removeJob_succeeds id r r' →
     cache r' !! "allJobs" = None ∧
     cached now r' = None ∧
     completion (getAllJobs now filter) r' = Ok (listing filter r')).
Proof.
  split.
  - intros [_ [parked ->]]. unfold after. rewrite addJob_resume_run. simpl.
    assert (Hmiss : ∀ now', cached now'
      {| jobData := Map_set id jobValue (jobData parked);
         lockedJobs := lockedJobs parked ∖ {[id]};
         cache := delete "allJobs" (cache parked) |} = None)
      by (intros; apply cached_invalidated).
    assert (Hmem : to_job (id, jobValue) ∈ listing filter
      {| jobData := Map_set id jobValue (jobData parked);
         lockedJobs := lockedJobs parked ∖ {[id]};
         cache := delete "allJobs" (cache parked) |} ↔
      keeps filter (id, jobValue) = true).
    { rewrite elem_of_listing. simpl. split.
      - intros (e & _ & Hkeep & Heq). apply to_job_inj in Heq. by subst e.
      - intros Hkeep. exists (id, jobValue).
        split; [apply Map_set_elem_of | done]. }
    split; [apply Map_has_set | ].
    split; [apply lookup_delete_eq | ].
    split; [apply Hmiss | ].
    split; [unfold completion; by rewrite getAllJobs_miss_run | ].
    split; [exact Hmem | ].
    intros Hnot. apply Hmem. unfold keeps. by rewrite Hnot.
  - intros [_ [parked ->]]. unfold after. rewrite removeJob_resume_run. simpl.
    split; [apply lookup_delete_eq | ].
    split; [apply cached_invalidated | ].
    unfold completion. rewrite getAllJobs_miss_run; [done | ].
    apply cached_invalidated.
Qed.

(** list, add, list, all at time 0: the second listing holds the job
    added. *)
Lemma successful_mutation_invalidates_listing_witness :
  let r := after (getAllJobs 0 JUndefined) initial in
  let r' := after (addJob (Some "A") (JStr "5")) r in
  addJob_succeeds (Some "A") (JStr "5") r r' ∧
  cache r !! "allJobs" = Some {| t := 10000; v := [] |} ∧
  completion (getAllJobs 0 JUndefined) r' =
    Ok [{| JobID := Some "A"; JobValue := JStr "5" |}] ∧
  to_job (Some "A", JStr "5") ∈ listing JUndefined r'.
Proof.
  intros r r'.
  assert (Hok : addJob_succeeds (Some "A") (JStr "5") r r')
    by (apply addJob_succeeds_alone; reflexivity).
  split; [exact Hok | ].
  split; [reflexivity | ].
  split; [reflexivity | ].
  apply (proj1 (successful_mutation_invalidates_listing
                  (Some "A") (JStr "5") r r' 0 JUndefined) Hok).
  reflexivity.
Defined.

(** C6.  An unfiltered listing request made while an unexpired listing is
    cached returns that listing and leaves the registry as it is.  So a
    second unfiltered request, made no later than ten seconds after one
    that computed the listing at [now1], returns the same listing; one made
    later than that computes the listing from the store. *)
Theorem unfiltered_listing_served_from_cache now1 now2 now3 filter1 filter2 filter3 r :
  JS.not filter1 = true → JS.not filter2 = true → JS.not filter3 = true →
  0 ≤ now1 → now2 ≤ now1 + listingTTL * 1000 → now1 + listingTTL * 1000 < now3 →
  let r1 := after (getAllJobs now1 filter1) r in
  (∀ hit, cached now1 r = Some hit → getAllJobs now1 filter1 r = (Ok hit, r)) ∧
  (cached now1 r = None →
     completion (getAllJobs now1 filter1) r = Ok (listing filter1 r) ∧
     getAllJobs now2 filter2 r1 = (Ok (listing filter1 r), r1) ∧
     cached now3 r1 = None ∧
     completion (getAllJobs now3 filter3) r1 = Ok (listing filter3 r1)) ∧
  (∀ hit, cached now2 r1 = Some hit →
     getAllJobs now2 filter2 r1 = (completion (getAllJobs now1 filter1) r, r1)).
Proof.
  intros Hf1 Hf2 Hf3 Hnow1 Hnow2 Hnow3 r1.
  split; [intros hit Hhit; by apply getAllJobs_hit_run | ].
  split.
  - intros Hmiss. subst r1. unfold after, completion.
    rewrite (getAllJobs_miss_run now1 filter1 r Hmiss). simpl.
    split; [done | ].
    split.
    + apply getAllJobs_hit_run; [done | ].
      rewrite cached_after_recompute by done.
      by destruct (Z.ltb_spec (now1 + listingTTL * 1000) now2); [lia | ].
    + assert (Hlapsed : cached now3
        {| jobData := jobData r; lockedJobs := lockedJobs r;
           cache := <["allJobs" := NodeCache_wrap (listing filter1 r) listingTTL now1]>
                      (cache r) |} = None).
      { rewrite cached_after_recompute by done.
        by destruct (Z.ltb_spec (now1 + listingTTL * 1000) now3); [ | lia]. }
      split; [exact Hlapsed | ].
      by rewrite getAllJobs_miss_run.
  - intros hit Hhit.
    rewrite (getAllJobs_hit_run now2 filter2 r1 hit Hf2 Hhit). f_equal.
    subst r1. unfold after, completion in *.
    destruct (cached now1 r) as [hit1 | ] eqn:Hfirst.
    + rewrite (getAllJobs_hit_run now1 filter1 r hit1 Hf1 Hfirst) in *. simpl in *.
      rewrite cached_lookup in Hhit, Hfirst.
      destruct (cache r !! "allJobs") as [d | ]; [ | done].
      destruct (NodeCache_check now1 d); [ | done].
      destruct (NodeCache_check now2 d); [ | done]. congruence.
    + rewrite (getAllJobs_miss_run now1 filter1 r Hfirst) in *. simpl in *.
      rewrite cached_after_recompute in Hhit by done.
      destruct (now1 + listingTTL * 1000 <? now2); congruence.
Qed.

(** With A=5 stored: listing at time 0 computes, at time 10000 the cached
    listing is served, at time 10001 the listing is computed again. *)
Lemma unfiltered_listing_served_from_cache_witness :
  let r := after (addJob (Some "A") (JStr "5")) initial in
  let r1 := after (getAllJobs 0 JUndefined) r in
  let A5 := {| JobID := Some "A"; JobValue := JStr "5" |} in
  JS.not JUndefined = true ∧ 0 ≤ 0 ∧ 10000 ≤ 0 + listingTTL * 1000 ∧
  0 + listingTTL * 1000 < 10001 ∧
  cached 0 r = None ∧
  completion (getAllJobs 0 JUndefined) r = Ok [A5] ∧
  getAllJobs 10000 JUndefined r1 = (Ok [A5], r1) ∧
  cached 10001 r1 = None.
Proof.
  intros r r1 A5.
  assert (Hnot : JS.not JUndefined = true) by reflexivity.
  assert (H0 : 0 ≤ 0) by lia.
  assert (H2 : 10000 ≤ 0 + listingTTL * 1000) by (unfold listingTTL; lia).
  assert (H3 : 0 + listingTTL * 1000 < 10001) by (unfold listingTTL; lia).
  assert (Hmiss : cached 0 r = None) by reflexivity.
  pose proof (unfiltered_listing_served_from_cache 0 10000 10001
    JUndefined JUndefined JUndefined r Hnot Hnot Hnot H0 H2 H3) as [_ [Hcold _]].
  destruct (Hcold Hmiss) as (Hfirst & Hsecond & Hthird & _).
  repeat split; try done.
Defined.

(** C7, counterexample.  With the values "3", "abc" and "1" stored in that
    order, the unfiltered listing is returned in that same order: "abc" is
    no number, the comparator yields NaN against it, and 3 stays ahead
    of 1. *)
Lemma listing_not_ascending_on_text :
  let r := after (addJob (Some "c") (JStr "1"))
             (after (addJob (Some "b") (JStr "abc"))
                (after (addJob (Some "a") (JStr "3")) initial)) in
  let jobs := [{| JobID := Some "a"; JobValue := JStr "3" |};
               {| JobID := Some "b"; JobValue := JStr "abc" |};
               {| JobID := Some "c"; JobValue := JStr "1" |}] in
  cached 0 r = None ∧
  completion (getAllJobs 0 JUndefined) r = Ok jobs ∧
  ¬ ascending jobs.
Proof.
  split; [reflexivity | ].
  split; [reflexivity | ].
  intros Hsorted.
  apply StronglySorted_inv in Hsorted as [_ Hhead].
  apply Forall_cons in Hhead as [_ Hhead].
  apply Forall_cons in Hhead as [Hle _].
  vm_compute in Hle. discriminate Hle.
Qed.

(** C7, as amended.  When every stored value denotes a number (a number
    that is not NaN, or text that converts to one), a listing request that
    computes the listing (nothing unexpired is cached, or a filter is given)
    returns the kept entries sorted ascending by numeric value, and entries
    of equal numeric value are in the order in which the store enumerates
    them. *)
Theorem recomputed_listing_sorted_stable now filter r :
  Forall (λ e, numeric e.2) (jobData r) →
  cached now r = None ∨ ToBoolean filter = true →
  completion (getAllJobs now filter) r = Ok (listing filter r) ∧
  listing filter r ≡ₚ kept filter (Map_entries (jobData r)) ∧
  Forall (λ a, numeric (JobValue a)) (listing filter r) ∧
  ascending (listing filter r) ∧
  StronglySorted (λ a b, value_leb a b = true) (listing filter r) ∧
  ∀ c, List.filter (λ a, same_value a c) (listing filter r) =
       List.filter (λ a, same_value a c) (kept filter (Map_entries (jobData r))).
Proof.
  intros Hnum Hcomputes. unfold Map_entries.
  pose proof (kept_numeric filter (jobData r) Hnum) as Hkept.
  split.
  - unfold completion.
    destruct Hcomputes as [Hmiss | Hfilter].
    + by rewrite getAllJobs_miss_run.
    + by rewrite getAllJobs_filtered_run.
  - unfold listing. split; [apply sort_Permutation | ].
    split; [by rewrite sort_Permutation | ].
    split; [by apply sort_byJobValue_ascending | ].
    split; [by apply sort_byJobValue_sorted | ].
    intros c. by apply sort_byJobValue_stable.
Qed.

(** With a="7", b=5, c=" 5.0 ", d="3", e="0x10", f="1e1",
    g="9007199254740993" and h="9007199254740992" stored in that order, the
    listing with the filter 4 is b, c, a, f, e, g, h: "9007199254740993"
    converts to 9007199254740992, so g and h are equal and keep their
    order. *)
Lemma recomputed_listing_sorted_stable_witness :
  let r := after (addJob (Some "h") (JStr "9007199254740992"))
            (after (addJob (Some "g") (JStr "9007199254740993"))
             (after (addJob (Some "f") (JStr "1e1"))
              (after (addJob (Some "e") (JStr "0x10"))
               (after (addJob (Some "d") (JStr "3"))
                (after (addJob (Some "c") (JStr " 5.0 "))
                 (after (addJob (Some "b") (JNum (Num 5)))
                  (after (addJob (Some "a") (JStr "7")) initial))))))) in
  let a := {| JobID := Some "a"; JobValue := JStr "7" |} in
  let b := {| JobID := Some "b"; JobValue := JNum (Num 5) |} in
  let c := {| JobID := Some "c"; JobValue := JStr " 5.0 " |} in
  let e := {| JobID := Some "e"; JobValue := JStr "0x10" |} in
  let f := {| JobID := Some "f"; JobValue := JStr "1e1" |} in
  let g := {| JobID := Some "g"; JobValue := JStr "9007199254740993" |} in
  let h := {| JobID := Some "h"; JobValue := JStr "9007199254740992" |} in
  Forall (λ e, numeric e.2) (jobData r) ∧
  ToBoolean (JNum (Num 4)) = true ∧
  completion (getAllJobs 0 (JNum (Num 4))) r = Ok [b; c; a; f; e; g; h] ∧
  ascending [b; c; a; f; e; g; h] ∧
  List.filter (λ x, same_value x b) [b; c; a; f; e; g; h] = [b; c] ∧
  List.filter (λ x, same_value x h) [b; c; a; f; e; g; h] = [g; h].
Proof.
  intros r a b c e f g h.
  assert (Hnum : Forall (λ e, numeric e.2) (jobData r))
    by (repeat constructor; by vm_compute).
  assert (Hfilter : ToBoolean (JNum (Num 4)) = true) by reflexivity.
  destruct (recomputed_listing_sorted_stable 0 (JNum (Num 4)) r Hnum
              (or_intror Hfilter)) as (Hres & _ & _ & Hasc & _ & Hstable).
  assert (Heq : listing (JNum (Num 4)) r = [b; c; a; f; e; g; h])
    by (by vm_compute).
  rewrite Heq in Hres, Hasc, Hstable.
  split; [exact Hnum | ].
  split; [exact Hfilter | ].
  split; [exact Hres | ].
  split; [exact Hasc | ].
  split; [rewrite (Hstable b) | rewrite (Hstable h)]; by vm_compute.
Defined.

(** C8.  An addJob or removeJob call that fails leaves the job store, the
    lock set and the cache exactly as they were, and parks nothing. *)
Theorem failed_call_mutates_nothing id jobValue r e :
  (completion (addJob id jobValue) r = Throw e → after (addJob id jobValue) r = r) ∧
  (completion (removeJob id) r = Throw e → after (removeJob id) r = r) ∧
  (∀ ev pending,
     (dispatch ev {| heap := r; timers := pending |}).1 = Rejected e →
     (dispatch ev {| heap := r; timers := pending |}).2 =
       {| heap := r; timers := pending |}).
Proof.
  unfold completion, after.
  split; [ | split].
  - rewrite addJob_run, addJob_begin_run.
    destruct (decide _); [done | ].
    destruct (Map_has id (jobData r)); [done | ].
    by destruct (bool_decide (id ∈ lockedJobs r)).
  - rewrite removeJob_run, removeJob_begin_run.
    destruct (decide _); [done | ].
    destruct (negb (Map_has id (jobData r))); [done | ].
    by destruct (bool_decide (id ∈ lockedJobs r)).
  - intros ev pending.
    destruct ev as [id' jobValue' | id' | now filter | ]; simpl.
    + rewrite addJob_begin_run.
      destruct (decide _); [done | ].
      destruct (Map_has id' (jobData r)); [done | ].
      by destruct (bool_decide (id' ∈ lockedJobs r)).
    + rewrite removeJob_begin_run.
      destruct (decide _); [done | ].
      destruct (negb (Map_has id' (jobData r))); [done | ].
      by destruct (bool_decide (id' ∈ lockedJobs r)).
    + destruct (getAllJobs_completes now filter r) as [jobs Hjobs].
      destruct (getAllJobs now filter r) as [res r']. simpl in *. by subst res.
    + destruct pending as [ | k pending]; [done | ].
      pose proof (resume_completes k r) as Hres.
      destruct (resume k r) as [res r']. simpl in *. by subst res.
Qed.

(** With A=5 stored and B parked in an addJob: adding A again fails with
    AlreadyExists, removing C fails with NotFound, adding B again is
    rejected with AlreadyProcessing, and the registry is the same after
    each. *)
Lemma failed_call_mutates_nothing_witness :
  let r := after (addJob_begin (Some "B") (JStr "7"))
             (after (addJob (Some "A") (JStr "5")) initial) in
  let s := {| heap := r; timers := [AddJobK (Some "B") (JStr "7")] |} in
  completion (addJob (Some "A") (JStr "9")) r = Throw AlreadyExists ∧
  after (addJob (Some "A") (JStr "9")) r = r ∧
  completion (removeJob (Some "C")) r = Throw NotFound ∧
  after (removeJob (Some "C")) r = r ∧
  (dispatch (CallAddJob (Some "B") (JStr "8")) s).1 = Rejected AlreadyProcessing ∧
  (dispatch (CallAddJob (Some "B") (JStr "8")) s).2 = s.
Proof.
  intros r s.
  assert (H1 : completion (addJob (Some "A") (JStr "9")) r = Throw AlreadyExists)
    by reflexivity.
  assert (H2 : completion (removeJob (Some "C")) r = Throw NotFound)
    by reflexivity.
  assert (H3 : (dispatch (CallAddJob (Some "B") (JStr "8")) s).1 =
               Rejected AlreadyProcessing) by reflexivity.
  split; [exact H1 | ].
  split; [exact (proj1 (failed_call_mutates_nothing (Some "A") (JStr "9") r
                          AlreadyExists) H1) | ].
  split; [exact H2 | ].
  split; [exact (proj1 (proj2 (failed_call_mutates_nothing (Some "C") JUndefined r
                                 NotFound)) H2) | ].
  split; [exact H3 | ].
  exact (proj2 (proj2 (failed_call_mutates_nothing None JUndefined r
                         AlreadyProcessing)) _ _ H3).
Defined.

(** C9, counterexample.  While addJob("A","5") is parked at its await, a
    second addJob("A","7") is rejected with AlreadyProcessing, and when it
    has returned "A" is still in the lock set, held by the first call. *)
Lemma rejected_call_leaves_lock_held :
  let s := run [CallAddJob (Some "A") (JStr "5")] boot in
  let second := dispatch (CallAddJob (Some "A") (JStr "7")) s in
  timers s = [AddJobK (Some "A") (JStr "5")] ∧
  second.1 = Rejected AlreadyProcessing ∧
  Some "A" ∈ lockedJobs (heap second.2) ∧
  completion (addJob (Some "A") (JStr "7")) (heap s) = Throw AlreadyProcessing ∧
  Some "A" ∈ lockedJobs (after (addJob (Some "A") (JStr "7")) (heap s)).
Proof.
  split; [reflexivity | ].
  split; [reflexivity | ].
  split; [apply (bool_decide_unpack _); vm_compute; exact I | ].
  split; [reflexivity | ].
  apply (bool_decide_unpack _); vm_compute; exact I.
Qed.

(** C9, as amended.  In every state the server reaches, the lock set holds
    exactly the identifiers of the operations parked at their await, one
    operation each.  A call that fails acquires nothing and leaves the lock
    set as it found it; a call that passes its checks acquires the lock of
    its identifier, which was free; when it resumes it releases that lock,
    once, before it writes the store, after which the identifier is not in
    the lock set and no parked operation is left to release it again. *)
Theorem lock_set_after_dispatch es ev :
  let s := run es boot in
  locks_match_timers s ∧
  lock_discipline s (dispatch ev s).1 (dispatch ev s).2.
Proof.
  intros s.
  assert (Hinv : locks_match_timers s)
    by apply run_locks_match_timers, boot_locks_match_timers.
  split; [exact Hinv | ].
  destruct s as [r ts]. destruct Hinv as [Hnodup Hlocks]. simpl in *.
  destruct ev as [id jobValue | id | now filter | ]; simpl.
  - rewrite addJob_begin_run.
    destruct (decide _); [done | ].
    destruct (Map_has id (jobData r)); [done | ].
    destruct (bool_decide (id ∈ lockedJobs r)) eqn:Hheld; [done | ].
    apply bool_decide_eq_false in Hheld. simpl.
    by exists (AddJobK id jobValue).
  - rewrite removeJob_begin_run.
    destruct (decide _); [done | ].
    destruct (negb (Map_has id (jobData r))); [done | ].
    destruct (bool_decide (id ∈ lockedJobs r)) eqn:Hheld; [done | ].
    apply bool_decide_eq_false in Hheld. simpl.
    by exists (RemoveJobK id).
  - destruct (getAllJobs_completes now filter r) as [jobs Hjobs].
    pose proof (getAllJobs_frame now filter r) as [_ Hframe].
    destruct (getAllJobs now filter r) as [res r']. simpl in *. by subst res.
  - destruct ts as [ | k ts]; [done | ].
    pose proof (resume_completes k r) as Hres.
    assert (Hheap : lockedJobs (resume k r).2 = lockedJobs r ∖ {[continuation_id k]})
      by (by destruct k).
    destruct (resume k r) as [res r']. simpl in *. subst res. simpl.
    apply NoDup_cons in Hnodup as [Hfresh _].
    exists k. split; [done | ].
    split; [apply Hlocks, list_elem_of_here | ].
    split; [done | ].
    split; [ | done].
    rewrite Hheap, elem_of_difference, elem_of_singleton. tauto.
Qed.

(** C10, counterexample.  POST /add?jobid=A&jobValue=0 on the fresh
    process: the value arrives as the text "0", which is truthy; the request
    is answered 200 when its timer fires, and the store then holds for A the
    value "0", whose numeric value is 0. *)
Lemma zero_added_through_post_add :
  let q := {| query_jobid := Some "A"; query_jobValue := Some "0" |} in
  let ran := serve_all [Request 0 (POST_add q); Timeout] http_boot in
  ran.1 = [([logger_info "Added job: JobID=A, JobValue=0"],
            {| status := 200; body := stat_ok |})] ∧
  Map_get (Some "A") (jobData (heap (core ran.2))) = Some (JStr "0") ∧
  ToNumber (JStr "0") = Num 0.
Proof. by vm_compute. Qed.

(** C10, as amended.  addJob rejects every falsy value with InvalidInput,
    the number 0 among them, whatever the identifier and the registry, and
    changes nothing; so in no state the server reaches does the store hold
    the number 0 as a value.  Of the texts only the empty one is rejected:
    the text "0", which is what POST /add hands over for jobValue=0, is
    accepted. *)
Theorem zero_value_never_stored :
  (∀ id jobValue r, falsy jobValue →
     addJob id jobValue r = (Throw InvalidInput, r)) ∧
  (∀ id r, addJob id (JNum (Num 0)) r = (Throw InvalidInput, r)) ∧
  (∀ id s, dispatch (CallAddJob id (JNum (Num 0))) s = (Rejected InvalidInput, s)) ∧
  (∀ es id, Map_get id (jobData (heap (run es boot))) ≠ Some (JNum (Num 0))) ∧
  (∀ id s r, completion (addJob id (JStr s)) r = Throw InvalidInput ↔
             id_missing_or_empty id ∨ s = "").
Proof.
  assert (Hfalsy : ∀ id jobValue r, falsy jobValue →
            addJob id jobValue r = (Throw InvalidInput, r)).
  { intros id jobValue r Hv. rewrite addJob_run, addJob_begin_run.
    rewrite decide_True; [done | by right]. }
  assert (Hzero : falsy (JNum (Num 0))) by (right; by left).
  split; [exact Hfalsy | ].
  split; [intros; by apply Hfalsy | ].
  split; [ | split].
  - intros id [r ts]. simpl. rewrite addJob_begin_run.
    rewrite decide_True; [done | by right].
  - intros es id Hget.
    assert (Htruthy : values_truthy (jobData (heap (run es boot))))
      by (apply run_values_truthy; split; constructor).
    apply Map_get_elem_of in Hget.
    unfold values_truthy in Htruthy. rewrite Forall_forall in Htruthy.
    by specialize (Htruthy _ Hget).
  - intros id s r. unfold completion. rewrite addJob_run, addJob_begin_run.
    assert (Htext : falsy (JStr s) ↔ s = "").
    { unfold falsy, missing_or_empty. split.
      - intros [[? | [= ->]] | [? | ?]]; done.
      - intros ->. left. by right. }
    rewrite <- Htext.
    destruct (decide _) as [Hbad | Hgood]; simpl; [done | ].
    destruct (Map_has id (jobData r)); simpl; [done | ].
    by destruct (bool_decide (id ∈ lockedJobs r)).
Qed.

(** The empty string and the number 0 are rejected alike. *)
Lemma zero_value_never_stored_witness :
  falsy (JStr "") ∧
  addJob (Some "A") (JStr "") initial = (Throw InvalidInput, initial) ∧
  addJob (Some "A") (JNum (Num 0)) initial = (Throw InvalidInput, initial).
Proof.
  assert (Hempty : falsy (JStr "")) by (left; by right).
  split; [exact Hempty | ].
  split.
  - exact (proj1 zero_value_never_stored (Some "A") (JStr "") initial Hempty).
  - exact (proj1 (proj2 zero_value_never_stored) (Some "A") initial).
Defined.

(** The text "0" is truthy: a request with the value "0" is accepted, and
    the store then holds that string. *)
Lemma text_zero_is_stored :
  completion (addJob (Some "A") (JStr "0")) initial = Ok tt ∧
  Map_get (Some "A") (jobData (after (addJob (Some "A") (JStr "0")) initial)) =
    Some (JStr "0").
Proof. split; reflexivity. Qed.

(** ** Further facts about [Map] *)

Section MapMore.
Context {K V : Type} `{EqDecision K}.
Implicit Types (k : K) (v : V) (m : list (K * V)).

Lemma Map_get_None k m : Map_get k m = None ↔ k ∉ m.*1.
Proof.
  induction m as [ | [k' v'] m IH]; simpl.
  - split; [intros _; apply not_elem_of_nil | done].
  - rewrite not_elem_of_cons. destruct (decide (k = k')) as [-> | Hne].
    + split; [done | intros [? _]; done].
    + rewrite IH. tauto.
Qed.

Lemma Map_has_false k m : Map_has k m = false ↔ k ∉ m.*1.
Proof.
  rewrite <- Map_get_None. unfold Map_has.
  destruct (Map_get k m); split; done.
Qed.

Lemma Map_has_true k m : Map_has k m = true ↔ k ∈ m.*1.
Proof.
  destruct (Map_has k m) eqn:Hhas.
  - split; [intros _ | done].
    destruct (decide (k ∈ m.*1)) as [ | Hout]; [done | ].
    apply Map_has_false in Hout. congruence.
  - apply Map_has_false in Hhas. split; [done | intros ?; done].
Qed.

Lemma Map_get_set_ne k k' v m : k ≠ k' → Map_get k' (Map_set k v m) = Map_get k' m.
Proof.
  intros Hne. induction m as [ | [k0 v0] m IH]; simpl.
  - by rewrite decide_False by done.
  - destruct (decide (k = k0)) as [-> | Hne0]; simpl.
    + by rewrite !decide_False by done.
    + by rewrite IH.
Qed.

Lemma Map_get_delete_ne k k' m :
  k ≠ k' → Map_get k' (Map_delete k m) = Map_get k' m.
Proof.
  intros Hne. induction m as [ | [k0 v0] m IH]; simpl; [done | ].
  destruct (decide (k = k0)) as [-> | Hne0]; simpl.
  - by rewrite decide_False by done.
  - by rewrite IH.
Qed.

Lemma Map_delete_absent k m : Map_get k m = None → Map_delete k m = m.
Proof.
  induction m as [ | [k0 v0] m IH]; simpl; [done | ].
  destruct (decide (k = k0)); [done | ]. intros Hget. by rewrite IH.
Qed.

Lemma Map_get_delete_eq k m : NoDup m.*1 → Map_get k (Map_delete k m) = None.
Proof.
  induction m as [ | [k0 v0] m IH]; simpl; [done | ].
  intros [Hk0 Hm]%NoDup_cons.
  destruct (decide (k = k0)) as [-> | Hne]; simpl.
  - by apply Map_get_None.
  - rewrite decide_False by done. by apply IH.
Qed.

(** A new key goes to the end of the enumeration. *)
Lemma Map_set_fresh k v m : Map_get k m = None → Map_set k v m = m ++ [(k, v)].
Proof.
  induction m as [ | [k0 v0] m IH]; simpl; [done | ].
  destruct (decide (k = k0)); [done | ]. intros Hget. by rewrite IH.
Qed.

Lemma Map_delete_set_fresh k v m :
  Map_get k m = None → Map_delete k (Map_set k v m) = m.
Proof.
  induction m as [ | [k0 v0] m IH]; simpl.
  - by rewrite decide_True.
  - destruct (decide (k = k0)) as [-> | Hne]; [done | ].
    intros Hget. simpl. rewrite decide_False by done. by rewrite IH.
Qed.

Lemma Map_set_keys k v m :
  (Map_set k v m).*1 = if Map_has k m then m.*1 else m.*1 ++ [k].
Proof.
  unfold Map_has. induction m as [ | [k0 v0] m IH]; [done | ].
  cbn [Map_set Map_get].
  destruct (decide (k = k0)) as [-> | Hne]; [done | ].
  rewrite !fmap_cons, IH. by destruct (Map_get k m).
Qed.

Lemma Map_set_NoDup k v m : NoDup m.*1 → NoDup (Map_set k v m).*1.
Proof.
  intros Hm. rewrite Map_set_keys.
  destruct (Map_has k m) eqn:Hhas; [done | ].
  apply Map_has_false in Hhas.
  apply NoDup_app. split; [done | ]. split; [ | apply NoDup_singleton].
  intros k' Hin ->%list_elem_of_singleton. done.
Qed.

Lemma Map_delete_sublist k m : sublist (Map_delete k m) m.
Proof.
  induction m as [ | [k0 v0] m IH]; simpl; [done | ].
  destruct (decide (k = k0)).
  - by apply sublist_cons.
  - by apply sublist_skip.
Qed.

Lemma Map_delete_NoDup k m : NoDup m.*1 → NoDup (Map_delete k m).*1.
Proof.
  intros Hm. apply (sublist_NoDup _ m.*1); [exact Hm | apply fmap_sublist, Map_delete_sublist].
Qed.

Lemma Map_get_Some_elem_of k v m :
  NoDup m.*1 → (k, v) ∈ m → Map_get k m = Some v.
Proof.
  induction m as [ | [k0 v0] m IH]; simpl.
  - intros _ Hin. by apply elem_of_nil in Hin.
  - intros [Hk0 Hm]%NoDup_cons [Heq | Hin]%elem_of_cons.
    + injection Heq as -> ->. by rewrite decide_True.
    + destruct (decide (k = k0)) as [-> | Hne]; [ | by apply IH].
      exfalso. apply Hk0. apply list_elem_of_fmap. by exists (k0, v).
Qed.

End MapMore.

(** ** The invariant of the server *)

Lemma valid_id id : ¬ id_missing_or_empty id → ∃ s, id = Some s ∧ s ≠ "".
Proof.
  unfold id_missing_or_empty. destruct id as [s | ]; [ | tauto].
  intros Hid. exists s. split; [done | ]. intros ->. tauto.
Qed.

Lemma listing_jobData filter r r' :
  jobData r = jobData r' → listing filter r = listing filter r'.
Proof. unfold listing. by intros ->. Qed.

Lemma parked_ok_other m m' k :
  Map_get (continuation_id k) m' = Map_get (continuation_id k) m →
  parked_ok m k → parked_ok m' k.
Proof. destruct k; unfold parked_ok, Map_has; simpl; by intros ->. Qed.

Lemma boot_invariant : server_invariant boot.
Proof.
  split; [split; constructor | ].
  split; [apply boot_locks_match_timers | ].
  split; [constructor | ].
  split; [constructor | ].
  intros d Hd. simpl in Hd. by rewrite lookup_empty in Hd.
Qed.

Lemma dispatch_invariant e s : server_invariant s → server_invariant (dispatch e s).2.
Proof.
  intros Hinv.
  pose proof Hinv as (Hstore & Hlocks & Hparked & Hvalid & Hcache).
  split; [ | split; [by apply dispatch_locks_match_timers | ]].
  - (* the store *)
    destruct s as [r ts]. simpl in *.
    destruct e as [id jobValue | id | now filter | ]; simpl.
    + rewrite addJob_begin_run.
      destruct (decide _); [done | ].
      destruct (Map_has id (jobData r)); [done | ].
      by destruct (bool_decide (id ∈ lockedJobs r)).
    + rewrite removeJob_begin_run.
      destruct (decide _); [done | ].
      destruct (negb (Map_has id (jobData r))); [done | ].
      by destruct (bool_decide (id ∈ lockedJobs r)).
    + pose proof (getAllJobs_frame now filter r) as [Hd _].
      destruct (getAllJobs now filter r) as [res r']. simpl in *. by rewrite Hd.
    + destruct ts as [ | k ts]; [done | ].
      apply Forall_cons in Hvalid as [[Hid Htruthy] _].
      destruct Hstore as [Hnodup Hentries].
      destruct k as [id jobValue | id]; simpl in *.
      * split; [by apply Map_set_NoDup | by apply Map_set_Forall].
      * split; [by apply Map_delete_NoDup | by apply Map_delete_Forall].
  - destruct s as [r ts]. unfold parked_consistent, cache_reflects_store in *.
    simpl in *.
    destruct e as [id jobValue | id | now filter | ]; simpl.
    + rewrite addJob_begin_run.
      destruct (decide _) as [ | Hgood]; [done | ].
      destruct (Map_has id (jobData r)) eqn:Hhas; [done | ].
      destruct (bool_decide (id ∈ lockedJobs r)); [done | ].
      simpl. split; [ | split; [ | done]].
      * apply Forall_app. split; [done | by repeat constructor].
      * apply Forall_app. split; [done | ]. constructor; [ | constructor].
        split; [apply valid_id; tauto | apply truthy_not_falsy; tauto].
    + rewrite removeJob_begin_run.
      destruct (decide _) as [ | Hgood]; [done | ].
      destruct (Map_has id (jobData r)) eqn:Hhas; simpl; [ | done].
      destruct (bool_decide (id ∈ lockedJobs r)); [done | ].
      simpl. split; [ | split; [ | done]].
      * apply Forall_app. split; [done | by repeat constructor].
      * apply Forall_app. split; [done | ]. constructor; [ | constructor].
        split; [by apply valid_id | done].
    + rewrite getAllJobs_run. cbv zeta.
      assert (Hnew : ∀ d,
        <["allJobs" := NodeCache_wrap (listing filter r) listingTTL now]> (cache r)
          !! "allJobs" = Some d →
        ∃ filter', v d = listing filter'
          {| jobData := jobData r; lockedJobs := lockedJobs r;
             cache := <["allJobs" := NodeCache_wrap (listing filter r) listingTTL now]>
                        (cache r) |}).
      { intros d. rewrite lookup_insert_eq. intros [= <-]. by exists filter. }
      destruct (cached now r); [destruct (JS.not filter) | ]; simpl; done.
    + destruct ts as [ | k ts]; [done | ].
      destruct Hlocks as [Hnodup _]. simpl in Hnodup.
      apply NoDup_cons in Hnodup as [Hfresh _].
      apply Forall_cons in Hparked as [_ Hparked].
      apply Forall_cons in Hvalid as [_ Hvalid].
      assert (Hothers : ∀ m',
        (∀ id', id' ≠ continuation_id k →
           Map_get id' m' = Map_get id' (jobData r)) →
        Forall (parked_ok m') ts).
      { intros m' Hsame. rewrite Forall_forall in Hparked.
        apply Forall_forall. intros k' Hin.
        apply (parked_ok_other (jobData r)); [ | by apply Hparked].
        apply Hsame. intros Heq. apply Hfresh. rewrite <- Heq.
        apply list_elem_of_fmap. by exists k'. }
      destruct k as [id jobValue | id]; simpl in *.
      * split; [ | split; [done | ]].
        -- apply Hothers. intros id' Hne. by apply Map_get_set_ne.
        -- intros d. unfold NodeCache_del. by rewrite lookup_delete_eq.
      * split; [ | split; [done | ]].
        -- apply Hothers. intros id' Hne. by apply Map_get_delete_ne.
        -- intros d. unfold NodeCache_del. by rewrite lookup_delete_eq.
Qed.

Lemma run_invariant es s : server_invariant s → server_invariant (run es s).
Proof.
  revert s. induction es as [ | e es IH]; intros s Hs; simpl; [done | ].
  by apply IH, dispatch_invariant.
Qed.

Lemma reachable_invariant es : server_invariant (run es boot).
Proof. apply run_invariant, boot_invariant. Qed.

(** ** Further properties of the registry *)

(** X1.  In every state the server reaches, the store has one entry per
    identifier, every identifier is a non-empty string and every value is
    truthy. *)
Theorem reachable_store_well_formed es :
  store_well_formed (jobData (heap (run es boot))).
Proof. apply reachable_invariant. Qed.

(** X2.  When the timer of a parked addJob(id, value) fires, the job goes
    to the end of the store's enumeration: id is not stored at that moment,
    so no stored value is overwritten.  The lock on id is released and the
    cached listing dropped. *)
Theorem resumed_add_appends es id jobValue rest :
  let s := run es boot in
  timers s = AddJobK id jobValue :: rest →
  dispatch TimerFires s =
    (Resolved,
     {| heap := {| jobData := jobData (heap s) ++ [(id, jobValue)];
                   lockedJobs := lockedJobs (heap s) ∖ {[id]};
                   cache := delete "allJobs" (cache (heap s)) |};
        timers := rest |}).
Proof.
  intros s Htimers.
  pose proof (reachable_invariant es) as (_ & _ & Hparked & _).
  fold s in Hparked. unfold parked_consistent in Hparked.
  rewrite Htimers in Hparked. apply Forall_cons in Hparked as [Hfree _].
  simpl in Hfree. apply Map_has_false, Map_get_None in Hfree.
  unfold dispatch. rewrite Htimers. simpl.
  by rewrite (Map_set_fresh _ _ _ Hfree).
Qed.

Lemma resumed_add_appends_witness :
  let s := run [CallAddJob (Some "A") (JStr "5"); TimerFires;
                CallAddJob (Some "B") (JStr "3")] boot in
  timers s = [AddJobK (Some "B") (JStr "3")] ∧
  jobData (heap (dispatch TimerFires s).2) =
    [(Some "A", JStr "5"); (Some "B", JStr "3")].
Proof.
  intros s.
  assert (Htimers : timers s = [AddJobK (Some "B") (JStr "3")]) by reflexivity.
  split; [exact Htimers | ].
  exact (f_equal (λ x, jobData (heap x.2))
           (resumed_add_appends
              [CallAddJob (Some "A") (JStr "5"); TimerFires;
               CallAddJob (Some "B") (JStr "3")]
              (Some "B") (JStr "3") [] Htimers)).
Defined.

(** X3.  When the timer of a parked removeJob(id) fires, id is stored; its
    entry is deleted, every other entry keeps its value, and the remaining
    entries keep their order. *)
Theorem resumed_remove_deletes es id rest :
  let s := run es boot in
  let s' := (dispatch TimerFires s).2 in
  timers s = RemoveJobK id :: rest →
  Map_has id (jobData (heap s)) = true ∧
  Map_has id (jobData (heap s')) = false ∧
  (∀ id', id' ≠ id →
     Map_get id' (jobData (heap s')) = Map_get id' (jobData (heap s))) ∧
  sublist (jobData (heap s')) (jobData (heap s)) ∧
  timers s' = rest.
Proof.
  intros s s' Htimers.
  pose proof (reachable_invariant es) as ([Hnodup _] & _ & Hparked & _).
  fold s in Hparked, Hnodup. unfold parked_consistent in Hparked.
  rewrite Htimers in Hparked. apply Forall_cons in Hparked as [Hstored _].
  simpl in Hstored. subst s'. unfold dispatch. rewrite Htimers. simpl.
  split; [exact Hstored | ].
  split; [unfold Map_has; by rewrite Map_get_delete_eq | ].
  split; [intros id' Hne; by apply Map_get_delete_ne | ].
  split; [apply Map_delete_sublist | done].
Qed.

Lemma resumed_remove_deletes_witness :
  let s := run [CallAddJob (Some "A") (JStr "5"); TimerFires;
                CallAddJob (Some "B") (JStr "3"); TimerFires;
                CallRemoveJob (Some "A")] boot in
  timers s = [RemoveJobK (Some "A")] ∧
  Map_has (Some "A") (jobData (heap (dispatch TimerFires s).2)) = false ∧
  jobData (heap (dispatch TimerFires s).2) = [(Some "B", JStr "3")].
Proof.
  intros s.
  assert (Htimers : timers s = [RemoveJobK (Some "A")]) by reflexivity.
  split; [exact Htimers | ].
  split; [ | reflexivity].
  exact (proj1 (proj2 (resumed_remove_deletes _ _ _ Htimers))).
Defined.

(** X4.  A stored job is never updated: whatever is dispatched next, the
    value stored for an identifier stays the same, unless the event is the
    resumption of a removeJob for that identifier, which deletes it. *)
Theorem stored_value_never_changes es ev id jobValue :
  let s := run es boot in
  Map_get id (jobData (heap s)) = Some jobValue →
  Map_get id (jobData (heap (dispatch ev s).2)) = Some jobValue ∨
  (Map_get id (jobData (heap (dispatch ev s).2)) = None ∧
   ev = TimerFires ∧ ∃ rest, timers s = RemoveJobK id :: rest).
Proof.
  intros s Hget.
  pose proof (reachable_invariant es) as ([Hnodup _] & _ & Hparked & _).
  fold s in Hparked, Hnodup. unfold parked_consistent in Hparked.
  destruct s as [r ts]. simpl in *.
  destruct ev as [id' jobValue' | id' | now filter | ]; simpl.
  - left. rewrite addJob_begin_run.
    destruct (decide _); [done | ].
    destruct (Map_has id' (jobData r)); [done | ].
    by destruct (bool_decide (id' ∈ lockedJobs r)).
  - left. rewrite removeJob_begin_run.
    destruct (decide _); [done | ].
    destruct (negb (Map_has id' (jobData r))); [done | ].
    by destruct (bool_decide (id' ∈ lockedJobs r)).
  - left. pose proof (getAllJobs_frame now filter r) as [Hd _].
    destruct (getAllJobs now filter r) as [res r']. simpl in *. by rewrite Hd.
  - destruct ts as [ | k ts]; [by left | ].
    apply Forall_cons in Hparked as [Hk _].
    destruct k as [id' jobValue' | id']; simpl in *.
    + left. rewrite Map_get_set_ne; [done | ].
      intros ->. unfold Map_has in Hk. by rewrite Hget in Hk.
    + destruct (decide (id' = id)) as [-> | Hne].
      * right. split; [by apply Map_get_delete_eq | ]. split; [done | by exists ts].
      * left. by rewrite Map_get_delete_ne.
Qed.

Lemma stored_value_never_changes_witness :
  let s := run [CallAddJob (Some "A") (JStr "5"); TimerFires] boot in
  Map_get (Some "A") (jobData (heap s)) = Some (JStr "5") ∧
  Map_get (Some "A")
    (jobData (heap (dispatch (CallAddJob (Some "A") (JStr "9")) s).2)) =
    Some (JStr "5").
Proof.
  intros s.
  assert (Hget : Map_get (Some "A") (jobData (heap s)) = Some (JStr "5"))
    by reflexivity.
  split; [exact Hget | ].
  destruct (stored_value_never_changes
              [CallAddJob (Some "A") (JStr "5"); TimerFires]
              (CallAddJob (Some "A") (JStr "9")) _ _ Hget)
    as [Hsame | (_ & Hev & _)]; [exact Hsame | discriminate Hev].
Defined.

(** X5.  In every state the server reaches, addJob(id, value) is rejected
    with AlreadyProcessing exactly when its arguments are valid and another
    addJob for the same id is parked; removeJob(id) exactly when id is
    valid and another removeJob for id is parked.  (While a removeJob for
    id is parked an addJob on id is rejected with AlreadyExists, and while
    an addJob is parked a removeJob is rejected with NotFound.) *)
Theorem already_processing_iff_same_operation_parked es id jobValue :
  let s := run es boot in
  ((dispatch (CallAddJob id jobValue) s).1 = Rejected AlreadyProcessing ↔
     ¬ (id_missing_or_empty id ∨ falsy jobValue) ∧
     ∃ jobValue', AddJobK id jobValue' ∈ timers s) ∧
  ((dispatch (CallRemoveJob id) s).1 = Rejected AlreadyProcessing ↔
     ¬ id_missing_or_empty id ∧ RemoveJobK id ∈ timers s).
Proof.
  intros s.
  pose proof (reachable_invariant es) as (_ & [_ Hlocks] & Hparked & _).
  fold s in Hparked, Hlocks. unfold parked_consistent in Hparked.
  rewrite Forall_forall in Hparked.
  destruct s as [r ts]. simpl in *.
  assert (Hheld : ∀ id0, id0 ∈ lockedJobs r ↔
            ∃ k, k ∈ ts ∧ continuation_id k = id0).
  { intros id0. rewrite Hlocks, list_elem_of_fmap. split.
    - intros (k & -> & Hin). by exists k.
    - intros (k & Hin & <-). by exists k. }
  split.
  - rewrite addJob_begin_run.
    destruct (decide _) as [Hbad | Hgood]; simpl; [split; [done | tauto] | ].
    destruct (Map_has id (jobData r)) eqn:Hhas; simpl.
    + split; [done | ]. intros [_ [jobValue' Hin]].
      apply Hparked in Hin. simpl in Hin. congruence.
    + destruct (bool_decide (id ∈ lockedJobs r)) eqn:Hlocked; simpl.
      * apply bool_decide_eq_true in Hlocked.
        split; [intros _ | done]. split; [done | ].
        apply Hheld in Hlocked as (k & Hin & Hid).
        destruct k as [id0 jobValue' | id0]; simpl in Hid; subst id0.
        -- by exists jobValue'.
        -- apply Hparked in Hin. simpl in Hin. congruence.
      * apply bool_decide_eq_false in Hlocked.
        split; [done | ]. intros [_ [jobValue' Hin]].
        exfalso. apply Hlocked, Hheld. by exists (AddJobK id jobValue').
  - rewrite removeJob_begin_run.
    destruct (decide _) as [Hbad | Hgood]; simpl; [split; [done | tauto] | ].
    destruct (Map_has id (jobData r)) eqn:Hhas; simpl.
    + destruct (bool_decide (id ∈ lockedJobs r)) eqn:Hlocked; simpl.
      * apply bool_decide_eq_true in Hlocked.
        split; [intros _ | done]. split; [done | ].
        apply Hheld in Hlocked as (k & Hin & Hid).
        destruct k as [id0 jobValue' | id0]; simpl in Hid; subst id0.
        -- apply Hparked in Hin. simpl in Hin. congruence.
        -- done.
      * apply bool_decide_eq_false in Hlocked.
        split; [done | ]. intros [_ Hin].
        exfalso. apply Hlocked, Hheld. by exists (RemoveJobK id).
    + split; [done | ]. intros [_ Hin].
      apply Hparked in Hin. simpl in Hin. congruence.
Qed.

Lemma run_timers_fire n s :
  timers (run (replicate n TimerFires) s) = drop n (timers s).
Proof.
  revert s. induction n as [ | n IH]; intros s; simpl; [by rewrite drop_0 | ].
  rewrite IH. destruct s as [r ts]. simpl.
  destruct ts as [ | k ts]; simpl; [by rewrite drop_nil | ].
  by destruct (resume k r).
Qed.

(** X6.  No lock leaks: from any state the server reaches, once the timers
    of the operations parked in it have fired, no operation is parked and
    the lock set is empty. *)
Theorem locks_drain es :
  let s := run es boot in
  let s' := run (replicate (List.length (timers s)) TimerFires) s in
  timers s' = [] ∧ lockedJobs (heap s') = ∅.
Proof.
  intros s s'.
  assert (Htimers : timers s' = []).
  { subst s'. rewrite run_timers_fire. by apply drop_all. }
  split; [exact Htimers | ].
  assert (Hinv : server_invariant s').
  { subst s' s. rewrite <- run_app. apply reachable_invariant. }
  destruct Hinv as (_ & [_ Hlocks] & _).
  apply set_eq. intros id. rewrite Hlocks, Htimers. simpl.
  by rewrite elem_of_nil, elem_of_empty.
Qed.

Lemma listing_unfiltered filter r :
  JS.not filter = true → listing filter r = listing JUndefined r.
Proof.
  intros Hnot. unfold listing.
  by rewrite (kept_unfiltered filter), (kept_unfiltered JUndefined).
Qed.

(** X7.  A falsy filter is no filter: a listing request whose filter is the
    empty string, the number 0 or NaN does in every respect what the request
    without a filter does, so with the filter 0 jobs of negative value are
    listed too. *)
Theorem falsy_filter_is_no_filter now filter r :
  falsy filter → getAllJobs now filter r = getAllJobs now JUndefined r.
Proof.
  intros Hnot%not_true_iff_falsy. rewrite !getAllJobs_run. cbv zeta.
  rewrite (listing_unfiltered filter r Hnot), Hnot.
  by destruct (cached now r).
Qed.

Lemma falsy_filter_is_no_filter_witness :
  let r := after (addJob (Some "A") (JNum (Num (-5)))) initial in
  falsy (JNum (Num 0)) ∧
  completion (getAllJobs 0 (JNum (Num 0))) r =
    Ok [{| JobID := Some "A"; JobValue := JNum (Num (-5)) |}].
Proof.
  intros r.
  assert (Hzero : falsy (JNum (Num 0))) by (right; by left).
  split; [exact Hzero | ].
  unfold completion. rewrite (falsy_filter_is_no_filter 0 _ r Hzero).
  reflexivity.
Defined.

(** X8.  With a number for filter that is neither 0 nor NaN, the listing is
    computed from the store and holds exactly the stored jobs whose value
    converts to a number that is at least the filter; a job whose value is
    no number is left out. *)
Theorem number_filter_keeps_numbers_at_least now n r :
  ToBoolean (JNum n) = true →
  completion (getAllJobs now (JNum n)) r = Ok (listing (JNum n) r) ∧
  ∀ a, a ∈ listing (JNum n) r ↔
       ∃ e, e ∈ jobData r ∧ a = to_job e ∧ number_leb n (ToNumber e.2) = true.
Proof.
  intros Htruthy.
  split; [unfold completion; by rewrite getAllJobs_filtered_run | ].
  assert (Hkeeps : ∀ e, keeps (JNum n) e = number_leb n (ToNumber e.2)).
  { intros e. unfold keeps, JS.not. rewrite Htruthy. simpl. apply ge_number. }
  intros a. rewrite elem_of_listing. split.
  - intros (e & Hin & Hkeep & ->). exists e. by rewrite <- Hkeeps.
  - intros (e & Hin & -> & Hle). exists e. by rewrite Hkeeps.
Qed.

(** With "1.5", "0x10", "abc", "0.5" and "9007199254740995" stored, the
    filter 1 keeps 1.5, 16 and the large number, and the filter
    9007199254740996 keeps the large number, which converts to it. *)
Lemma number_filter_keeps_numbers_at_least_witness :
  let r := after (addJob (Some "e") (JStr "9007199254740995"))
            (after (addJob (Some "d") (JStr "0.5"))
             (after (addJob (Some "c") (JStr "abc"))
              (after (addJob (Some "b") (JStr "0x10"))
               (after (addJob (Some "a") (JStr "1.5")) initial)))) in
  let a := {| JobID := Some "a"; JobValue := JStr "1.5" |} in
  let b := {| JobID := Some "b"; JobValue := JStr "0x10" |} in
  let e := {| JobID := Some "e"; JobValue := JStr "9007199254740995" |} in
  ToBoolean (JNum (Num 1)) = true ∧
  completion (getAllJobs 0 (JNum (Num 1))) r = Ok [a; b; e] ∧
  ToBoolean (JNum (Num 9007199254740996)) = true ∧
  completion (getAllJobs 0 (JNum (Num 9007199254740996))) r = Ok [e].
Proof.
  intros r a b e.
  assert (H1 : ToBoolean (JNum (Num 1)) = true) by reflexivity.
  assert (H2 : ToBoolean (JNum (Num 9007199254740996)) = true) by reflexivity.
  pose proof (proj1 (number_filter_keeps_numbers_at_least 0 (Num 1) r H1)) as Hone.
  pose proof (proj1 (number_filter_keeps_numbers_at_least 0
                       (Num 9007199254740996) r H2)) as Hbig.
  assert (Heq1 : listing (JNum (Num 1)) r = [a; b; e]) by (by vm_compute).
  assert (Heq2 : listing (JNum (Num 9007199254740996)) r = [e]) by (by vm_compute).
  rewrite Heq1 in Hone. rewrite Heq2 in Hbig.
  split; [exact H1 | ]. split; [exact Hone | ].
  split; [exact H2 | exact Hbig].
Defined.

(** X9.  An unfiltered listing request that finds nothing cached returns
    the stored jobs, each once and none else, whatever their values. *)
Theorem unfiltered_recomputation_lists_the_store now filter r :
  JS.not filter = true → cached now r = None →
  ∃ jobs, completion (getAllJobs now filter) r = Ok jobs ∧
          jobs ≡ₚ to_job <$> Map_entries (jobData r).
Proof.
  intros Hnot Hmiss. exists (listing filter r).
  split; [unfold completion; by rewrite getAllJobs_miss_run | ].
  unfold listing, Map_entries.
  by rewrite sort_Permutation, kept_unfiltered.
Qed.

Lemma unfiltered_recomputation_lists_the_store_witness :
  let r := after (addJob (Some "b") (JStr "1"))
             (after (addJob (Some "a") (JStr "abc")) initial) in
  JS.not JUndefined = true ∧ cached 0 r = None ∧
  ∃ jobs, completion (getAllJobs 0 JUndefined) r = Ok jobs ∧
          jobs ≡ₚ [{| JobID := Some "a"; JobValue := JStr "abc" |};
                   {| JobID := Some "b"; JobValue := JStr "1" |}].
Proof.
  intros r.
  assert (Hnot : JS.not JUndefined = true) by reflexivity.
  assert (Hmiss : cached 0 r = None) by reflexivity.
  split; [exact Hnot | ]. split; [exact Hmiss | ].
  exact (unfiltered_recomputation_lists_the_store 0 JUndefined r Hnot Hmiss).
Defined.

Lemma filter_sublist {A} (p : A → bool) (l : list A) : sublist (List.filter p l) l.
Proof.
  induction l as [ | x l IH]; simpl; [done | ].
  destruct (p x); [by apply sublist_skip | by apply sublist_cons].
Qed.

Lemma listing_ids_NoDup filter r :
  NoDup (jobData r).*1 → NoDup (JobID <$> listing filter r).
Proof.
  intros Hnodup. unfold listing. rewrite sort_Permutation. unfold kept.
  rewrite <- list_fmap_compose.
  apply (sublist_NoDup _ (jobData r).*1); [exact Hnodup | ].
  change (JobID ∘ to_job) with (@fst jobid jsval).
  apply fmap_sublist, filter_sublist.
Qed.

Lemma cached_reflects now r hit :
  cache_reflects_store r → cached now r = Some hit →
  ∃ filter, hit = listing filter r.
Proof.
  intros Hcache. rewrite cached_lookup.
  destruct (cache r !! "allJobs") as [d | ] eqn:Hd; [ | done].
  destruct (NodeCache_check now d); [ | done].
  intros [= <-]. by apply Hcache.
Qed.

(** X10.  In every state the server reaches, a listing request, filtered or
    not, served from the cache or not, returns only jobs that are stored at
    that moment, with the values stored, and no identifier twice: a job that
    has been removed is never listed. *)
Theorem listing_shows_only_stored_jobs es now filter :
  let s := run es boot in
  ∃ jobs, completion (getAllJobs now filter) (heap s) = Ok jobs ∧
          (∀ a, a ∈ jobs →
             Map_get (JobID a) (jobData (heap s)) = Some (JobValue a)) ∧
          NoDup (JobID <$> jobs).
Proof.
  intros s.
  pose proof (reachable_invariant es) as ([Hnodup _] & _ & _ & _ & Hcache).
  fold s in Hnodup, Hcache.
  assert (Hlisting : ∀ filter', ∀ a, a ∈ listing filter' (heap s) →
            Map_get (JobID a) (jobData (heap s)) = Some (JobValue a)).
  { intros filter' a (e & Hin & _ & ->)%elem_of_listing.
    destruct e as [id val]. by apply Map_get_Some_elem_of. }
  unfold completion. rewrite getAllJobs_run. cbv zeta.
  destruct (cached now (heap s)) as [hit | ] eqn:Hhit.
  - destruct (cached_reflects _ _ _ Hcache Hhit) as [filter' ->].
    destruct (JS.not filter); simpl.
    + exists (listing filter' (heap s)).
      split; [done | ]. split; [apply Hlisting | by apply listing_ids_NoDup].
    + exists (listing filter (heap s)).
      split; [done | ]. split; [apply Hlisting | by apply listing_ids_NoDup].
  - exists (listing filter (heap s)).
    split; [done | ]. split; [apply Hlisting | by apply listing_ids_NoDup].
Qed.

Lemma dispatch_full_listing e s :
  unfiltered_only [e] →
  cache_is_full_listing (heap s) → cache_is_full_listing (heap (dispatch e s).2).
Proof.
  intros [He _]%Forall_cons Hfull.
  destruct s as [r ts]. unfold cache_is_full_listing in *. simpl in *.
  destruct e as [id jobValue | id | now filter | ]; simpl.
  - rewrite addJob_begin_run.
    destruct (decide _); [done | ].
    destruct (Map_has id (jobData r)); [done | ].
    by destruct (bool_decide (id ∈ lockedJobs r)).
  - rewrite removeJob_begin_run.
    destruct (decide _); [done | ].
    destruct (negb (Map_has id (jobData r))); [done | ].
    by destruct (bool_decide (id ∈ lockedJobs r)).
  - rewrite getAllJobs_run. cbv zeta. rewrite He.
    assert (Hnew : ∀ d,
      <["allJobs" := NodeCache_wrap (listing filter r) listingTTL now]> (cache r)
        !! "allJobs" = Some d →
      v d = listing JUndefined
        {| jobData := jobData r; lockedJobs := lockedJobs r;
           cache := <["allJobs" := NodeCache_wrap (listing filter r) listingTTL now]>
                      (cache r) |}).
    { intros d. rewrite lookup_insert_eq. intros [= <-]. simpl.
      by rewrite (listing_unfiltered filter r He). }
    by destruct (cached now r).
  - destruct ts as [ | k ts]; [done | ].
    destruct k; simpl; intros d; unfold NodeCache_del; by rewrite lookup_delete_eq.
Qed.

Lemma run_full_listing es s :
  unfiltered_only es →
  cache_is_full_listing (heap s) → cache_is_full_listing (heap (run es s)).
Proof.
  revert s. induction es as [ | e es IH]; intros s Hes Hs; simpl; [done | ].
  apply Forall_cons in Hes as [He Hes].
  apply IH; [done | ]. apply dispatch_full_listing; [ | done].
  by constructor.
Qed.

(** X11.  As long as no listing request carries a filter, the cache is
    coherent with the store: in every state reached, an unfiltered listing
    request returns the sorted listing of all the jobs stored at that
    moment, at any clock reading, whether it is served from the cache or
    not. *)
Theorem unfiltered_listing_always_current es now filter :
  unfiltered_only es → JS.not filter = true →
  let s := run es boot in
  completion (getAllJobs now filter) (heap s) = Ok (listing JUndefined (heap s)).
Proof.
  intros Hes Hnot s.
  assert (Hfull : cache_is_full_listing (heap s)).
  { apply run_full_listing; [done | ].
    intros d Hd. simpl in Hd. by rewrite lookup_empty in Hd. }
  unfold completion. rewrite getAllJobs_run. cbv zeta. rewrite Hnot.
  rewrite (listing_unfiltered filter _ Hnot).
  destruct (cached now (heap s)) as [hit | ] eqn:Hhit; [ | done].
  rewrite cached_lookup in Hhit.
  destruct (cache (heap s) !! "allJobs") as [d | ] eqn:Hd; [ | done].
  destruct (NodeCache_check now d); [ | done].
  injection Hhit as <-. simpl. f_equal. by apply Hfull.
Qed.

Lemma unfiltered_listing_always_current_witness :
  let es := [CallAddJob (Some "A") (JStr "5"); CallGetAllJobs 0 JUndefined;
             TimerFires; CallGetAllJobs 1 JUndefined;
             CallAddJob (Some "B") (JStr "3"); CallGetAllJobs 2 JUndefined;
             TimerFires] in
  unfiltered_only es ∧ JS.not JUndefined = true ∧
  completion (getAllJobs 3 JUndefined) (heap (run es boot)) =
    Ok [{| JobID := Some "B"; JobValue := JStr "3" |};
        {| JobID := Some "A"; JobValue := JStr "5" |}].
Proof.
  intros es.
  assert (Hes : unfiltered_only es) by (repeat constructor).
  assert (Hnot : JS.not JUndefined = true) by reflexivity.
  split; [exact Hes | ]. split; [exact Hnot | ].
  exact (unfiltered_listing_always_current es 3 JUndefined Hes Hnot).
Defined.

Lemma addJob_completes_run id jobValue r :
  completion (addJob id jobValue) r = Ok tt →
  ¬ (id_missing_or_empty id ∨ falsy jobValue) ∧
  Map_has id (jobData r) = false ∧
  (id ∉ lockedJobs r) ∧
  after (addJob id jobValue) r =
    {| jobData := Map_set id jobValue (jobData r);
       lockedJobs := ({[id]} ∪ lockedJobs r) ∖ {[id]};
       cache := delete "allJobs" (cache r) |}.
Proof.
  unfold completion, after. rewrite addJob_run, addJob_begin_run.
  destruct (decide _) as [ | Hgood]; [done | ].
  destruct (Map_has id (jobData r)); [done | ].
  destruct (bool_decide (id ∈ lockedJobs r)) eqn:Hlocked; [done | ].
  apply bool_decide_eq_false in Hlocked. done.
Qed.

Lemma lock_released (id : jobid) (locks : gset jobid) :
  id ∉ locks → ({[id]} ∪ locks) ∖ {[id]} = locks.
Proof.
  intros Hfree. apply set_eq. intros id'.
  rewrite elem_of_difference, elem_of_union, elem_of_singleton.
  split; [tauto | ]. intros Hin. split; [by right | ]. by intros ->.
Qed.

(** X12.  addJob followed by removeJob of the same id, each run to its
    end, puts the store and the lock set back exactly as they were, the
    order of the other entries included; nothing is left cached under
    'allJobs'. *)
Theorem add_then_remove_restores_store id jobValue r :
  completion (addJob id jobValue) r = Ok tt →
  removeJob id (after (addJob id jobValue) r) =
    (Ok tt, {| jobData := jobData r;
               lockedJobs := lockedJobs r;
               cache := delete "allJobs" (cache r) |}).
Proof.
  intros (Hgood & Hnew & Hfree & Heq)%addJob_completes_run.
  pose proof (lock_released id (lockedJobs r) Hfree) as Hrel.
  rewrite Heq, Hrel.
  rewrite removeJob_run, removeJob_begin_run. cbn [jobData lockedJobs cache].
  rewrite decide_False by tauto.
  rewrite Map_has_set. cbn [negb].
  rewrite bool_decide_eq_false_2 by done.
  unfold lockedJobs_add. rewrite removeJob_resume_run.
  cbn [jobData lockedJobs cache]. rewrite Hrel.
  rewrite Map_delete_set_fresh by (by apply Map_get_None, Map_has_false).
  by rewrite delete_delete_eq.
Qed.

Lemma add_then_remove_restores_store_witness :
  let r := after (addJob (Some "A") (JStr "5")) initial in
  completion (addJob (Some "B") (JStr "3")) r = Ok tt ∧
  jobData (after (removeJob (Some "B")) (after (addJob (Some "B") (JStr "3")) r)) =
    [(Some "A", JStr "5")].
Proof.
  intros r.
  assert (Hok : completion (addJob (Some "B") (JStr "3")) r = Ok tt) by reflexivity.
  split; [exact Hok | ].
  exact (f_equal (λ x, jobData x.2)
           (add_then_remove_restores_store (Some "B") (JStr "3") r Hok)).
Defined.

(** X13.  After a successful addJob(id, value), a second addJob for the
    same id with any valid value fails with AlreadyExists, and the store
    holds the first value. *)
Theorem second_add_is_rejected id jobValue jobValue' r :
  completion (addJob id jobValue) r = Ok tt →
  ToBoolean jobValue' = true →
  let r' := after (addJob id jobValue) r in
  addJob id jobValue' r' = (Throw AlreadyExists, r') ∧
  Map_get id (jobData r') = Some jobValue.
Proof.
  intros (Hgood & Hnew & Hfree & Heq)%addJob_completes_run Htruthy. simpl.
  rewrite Heq. simpl.
  split; [ | apply Map_get_set].
  rewrite addJob_run, addJob_begin_run. simpl.
  rewrite decide_False.
  - by rewrite Map_has_set.
  - intros [Hid | Hval]; [tauto | ].
    apply not_true_iff_falsy in Hval. apply not_false_iff_truthy in Htruthy.
    congruence.
Qed.

Lemma second_add_is_rejected_witness :
  let r' := after (addJob (Some "A") (JStr "5")) initial in
  completion (addJob (Some "A") (JStr "5")) initial = Ok tt ∧
  ToBoolean (JStr "9") = true ∧
  completion (addJob (Some "A") (JStr "9")) r' = Throw AlreadyExists ∧
  Map_get (Some "A") (jobData r') = Some (JStr "5").
Proof.
  intros r'.
  assert (Hok : completion (addJob (Some "A") (JStr "5")) initial = Ok tt)
    by reflexivity.
  assert (Htruthy : ToBoolean (JStr "9") = true) by reflexivity.
  destruct (second_add_is_rejected (Some "A") (JStr "5") (JStr "9") initial
              Hok Htruthy) as [Hsecond Hstored].
  split; [exact Hok | ]. split; [exact Htruthy | ].
  split; [exact (f_equal fst Hsecond) | exact Hstored].
Defined.

(** X14.  getAllJobs never throws, and it writes nothing but the cache: the
    store and the lock set are as before. *)
Theorem getAllJobs_touches_only_cache now filter r :
  ∃ jobs data,
    getAllJobs now filter r =
      (Ok jobs, {| jobData := jobData r; lockedJobs := lockedJobs r; cache := data |}).
Proof.
  rewrite getAllJobs_run. cbv zeta.
  destruct (cached now r) as [hit | ]; [destruct (JS.not filter) | ].
  - exists hit, (cache r). by destruct r.
  - by eexists _, _.
  - by eexists _, _.
Qed.

(** ** Properties of the request handlers *)

Lemma falsy_id_value o : falsy (id_value o) ↔ id_missing_or_empty o.
Proof. by rewrite <- not_true_iff_falsy, not_id_iff. Qed.

(** X15.  POST /add is answered 400 with the message 'Invalid input data',
    and an error line logged, exactly when the parameter jobid or the
    parameter jobValue is missing or empty; the text "0" is a valid
    value. *)
Theorem add_request_invalid_iff hs now q :
  (serve (Request now (POST_add q)) hs).1 =
    Some ([logger_error "Error adding job [POST /add]: Invalid input data"],
          {| status := 400; body := stat_error "Invalid input data" |}) ↔
  id_missing_or_empty (query_jobid q) ∨ id_missing_or_empty (query_jobValue q).
Proof.
  rewrite <- (falsy_id_value (query_jobValue q)).
  unfold serve, call_of, dispatch. rewrite addJob_begin_run.
  destruct (decide _) as [Hbad | Hgood]; simpl; [done | ].
  destruct (Map_has (query_jobid q) (jobData (heap (core hs)))); simpl;
    [split; [done | tauto] | ].
  destruct (bool_decide (query_jobid q ∈ lockedJobs (heap (core hs)))); simpl;
    split; (done || tauto).
Qed.

(** X16.  GET /all is always answered 200 with a listing, and an
    information line logged: its catch branch is never taken.  It parks
    nothing and leaves the store and the lock set as they are. *)
Theorem listing_request_always_answered hs now q :
  let hs' := (serve (Request now (GET_all q)) hs).2 in
  (∃ jobs, (serve (Request now (GET_all q)) hs).1 =
             Some ([logger_info "Retrieved all jobs"],
                   {| status := 200; body := data jobs |})) ∧
  awaiting hs' = awaiting hs ∧
  timers (core hs') = timers (core hs) ∧
  jobData (heap (core hs')) = jobData (heap (core hs)) ∧
  lockedJobs (heap (core hs')) = lockedJobs (heap (core hs)).
Proof.
  unfold serve, call_of, dispatch.
  destruct (getAllJobs_touches_only_cache now (id_value (query_jobValue q))
              (heap (core hs))) as (jobs & cache' & ->).
  simpl. split; [by exists jobs | done].
Qed.

Lemma serve_step ev hs :
  handlers_match_timers hs →
  handlers_match_timers (serve ev hs).2 ∧
  (match (serve ev hs).1 with Some _ => 1 | None => 0 end +
     List.length (awaiting (serve ev hs).2) =
   match ev with Request _ _ => 1 | Timeout => 0 end +
     List.length (awaiting hs))%nat.
Proof.
  destruct hs as [[r ts] waiting]. unfold handlers_match_timers. simpl.
  intros Hmatch.
  assert (Hpark : ∀ req k, continuation_of req = Some k →
            Forall2 (λ req k, continuation_of req = Some k)
              (waiting ++ [req]) (ts ++ [k])).
  { intros req k Hk. apply Forall2_app; [done | by repeat constructor]. }
  destruct ev as [now [q | q | q] | ]; simpl.
  - rewrite addJob_begin_run.
    destruct (decide _); simpl; [done | ].
    destruct (Map_has _ (jobData r)); simpl; [done | ].
    destruct (bool_decide (_ ∈ lockedJobs r)); simpl; [done | ].
    rewrite length_app. simpl. split; [by apply Hpark | lia].
  - destruct (getAllJobs_touches_only_cache now (id_value (query_jobValue q)) r)
      as (jobs & cache' & ->). simpl. done.
  - rewrite removeJob_begin_run.
    destruct (decide _); simpl; [done | ].
    destruct (negb (Map_has _ (jobData r))); simpl; [done | ].
    destruct (bool_decide (_ ∈ lockedJobs r)); simpl; [done | ].
    rewrite length_app. simpl. split; [by apply Hpark | lia].
  - destruct Hmatch as [ | req k waiting ts Hk Hmatch]; simpl; [done | ].
    pose proof (resume_completes k r) as Hres.
    destruct (resume k r) as [res r']. simpl in *. subst res. simpl.
    split; [done | ].
    destruct req as [q | q | q]; simpl in *; done.
Qed.

Lemma serve_all_app evs1 evs2 hs :
  serve_all (evs1 ++ evs2) hs =
    ((serve_all evs1 hs).1 ++ (serve_all evs2 (serve_all evs1 hs).2).1,
     (serve_all evs2 (serve_all evs1 hs).2).2).
Proof.
  revert hs. induction evs1 as [ | ev evs1 IH]; intros hs; simpl.
  - by destruct (serve_all evs2 hs).
  - destruct (serve ev hs) as [sent hs1]. rewrite IH.
    destruct (serve_all evs1 hs1) as [rest hs2]. simpl.
    by destruct sent.
Qed.

Lemma serve_all_count evs hs :
  handlers_match_timers hs →
  handlers_match_timers (serve_all evs hs).2 ∧
  (List.length (serve_all evs hs).1 + List.length (awaiting (serve_all evs hs).2) =
   List.length (requests evs) + List.length (awaiting hs))%nat.
Proof.
  revert hs. induction evs as [ | ev evs IH]; intros hs Hmatch; simpl; [done | ].
  destruct (serve_step ev hs Hmatch) as [Hmatch1 Hcount1].
  destruct (serve ev hs) as [sent hs1]. simpl in *.
  destruct (IH hs1 Hmatch1) as [Hmatch2 Hcount2].
  destruct (serve_all evs hs1) as [rest hs2]. simpl in *.
  split; [done | ].
  unfold requests in *.
  destruct ev as [now req | ]; destruct sent; simpl in *; lia.
Qed.

Lemma serve_all_drain hs :
  handlers_match_timers hs →
  let final := serve_all (replicate (List.length (awaiting hs)) Timeout) hs in
  List.length final.1 = List.length (awaiting hs) ∧
  awaiting final.2 = [] ∧ timers (core final.2) = [].
Proof.
  destruct hs as [[r ts] waiting]. unfold handlers_match_timers. simpl.
  intros Hmatch. revert r.
  induction Hmatch as [ | req k waiting ts Hk Hmatch IH]; intros r; simpl; [done | ].
  pose proof (resume_completes k r) as Hres.
  destruct (resume k r) as [res r']. simpl in *. subst res.
  specialize (IH r').
  destruct (serve_all (replicate (List.length waiting) Timeout)
              {| core := {| heap := r'; timers := ts |}; awaiting := waiting |})
    as [rest hs2]. simpl in *.
  destruct IH as (Hlen & Hwaiting & Htimers).
  destruct req as [q | q | q]; simpl in *; try done; by rewrite Hlen.
Qed.

Lemma http_boot_match : handlers_match_timers http_boot.
Proof. constructor. Qed.

(** X17.  Every request is answered exactly once.  After any run of
    requests and timeouts, the answers sent and the requests still waiting
    add up to the requests received; once the timers of the waiting
    requests have fired, every request has its answer, and nothing waits or
    is parked. *)
Theorem every_request_answered_once evs :
  let ran := serve_all evs http_boot in
  let final := serve_all (evs ++ replicate (List.length (awaiting ran.2)) Timeout)
                 http_boot in
  (List.length ran.1 + List.length (awaiting ran.2) = List.length (requests evs))%nat ∧
  List.length final.1 = List.length (requests evs) ∧
  awaiting final.2 = [] ∧
  timers (core final.2) = [].
Proof.
  intros ran final.
  destruct (serve_all_count evs http_boot http_boot_match) as [Hmatch Hcount].
  fold ran in Hmatch, Hcount. simpl in Hcount. rewrite Nat.add_0_r in Hcount.
  split; [exact Hcount | ].
  destruct (serve_all_drain ran.2 Hmatch) as (Hlen & Hwaiting & Htimers).
  subst final. rewrite serve_all_app. fold ran. simpl.
  rewrite length_app, Hlen. done.
Qed.

(** X18.  A POST is refused at once or accepted later: an answer sent to
    POST /add or POST /remove when the request arrives is a 400 with the
    error's message, and the process is left as it was; an answer sent when
    a timer fires is 200 with { stat: 'ok' }. *)
Theorem post_refused_at_once_or_accepted_later hs now q x :
  ((serve (Request now (POST_add q)) hs).1 = Some x →
     (∃ e, x.2 = {| status := 400; body := stat_error (message e) |}) ∧
     (serve (Request now (POST_add q)) hs).2 = hs) ∧
  ((serve (Request now (POST_remove q)) hs).1 = Some x →
     (∃ e, x.2 = {| status := 400; body := stat_error (message e) |}) ∧
     (serve (Request now (POST_remove q)) hs).2 = hs) ∧
  ((serve Timeout hs).1 = Some x → x.2 = {| status := 200; body := stat_ok |}).
Proof.
  destruct hs as [[r ts] waiting].
  split; [ | split].
  - unfold serve, call_of, dispatch. simpl. rewrite addJob_begin_run.
    destruct (decide _); simpl;
      [intros [= <-]; split; [by exists InvalidInput | done] | ].
    destruct (Map_has _ (jobData r)); simpl;
      [intros [= <-]; split; [by exists AlreadyExists | done] | ].
    destruct (bool_decide (_ ∈ lockedJobs r)); simpl;
      [intros [= <-]; split; [by exists AlreadyProcessing | done] | done].
  - unfold serve, call_of, dispatch. simpl. rewrite removeJob_begin_run.
    destruct (decide _); simpl;
      [intros [= <-]; split; [by exists InvalidInput | done] | ].
    destruct (negb (Map_has _ (jobData r))); simpl;
      [intros [= <-]; split; [by exists NotFound | done] | ].
    destruct (bool_decide (_ ∈ lockedJobs r)); simpl;
      [intros [= <-]; split; [by exists AlreadyProcessing | done] | done].
  - unfold serve, dispatch. simpl.
    destruct ts as [ | k ts]; simpl.
    + by destruct waiting.
    + pose proof (resume_completes k r) as Hres.
      destruct (resume k r) as [res r']. simpl in *. subst res.
      destruct waiting as [ | [q' | q' | q'] waiting]; simpl; try done;
        by intros [= <-].
Qed.

Lemma post_refused_at_once_or_accepted_later_witness :
  let q := {| query_jobid := Some "A"; query_jobValue := Some "5" |} in
  let hs := (serve (Request 0 (POST_add q)) http_boot).2 in
  let refusal := ([logger_error "Error adding job [POST /add]: Job ID is already being processed."],
                  {| status := 400;
                     body := stat_error "Job ID is already being processed." |}) in
  let success := ([logger_info "Added job: JobID=A, JobValue=5"],
                  {| status := 200; body := stat_ok |}) in
  (serve (Request 1 (POST_add q)) hs).1 = Some refusal ∧
  (serve (Request 1 (POST_add q)) hs).2 = hs ∧
  (serve Timeout hs).1 = Some success ∧
  success.2 = {| status := 200; body := stat_ok |}.
Proof.
  intros q hs refusal success.
  assert (H1 : (serve (Request 1 (POST_add q)) hs).1 = Some refusal) by reflexivity.
  assert (H2 : (serve Timeout hs).1 = Some success) by reflexivity.
  split; [exact H1 | ].
  split; [exact (proj2 (proj1 (post_refused_at_once_or_accepted_later
                                 hs 1 q refusal) H1)) | ].
  split; [exact H2 | ].
  exact (proj2 (proj2 (post_refused_at_once_or_accepted_later hs 1 q success)) H2).
Defined.
